(** * RowChaser: resolving a BWT row to a reference offset

    A shallow embedding of [src/row_chaser.h] (class [RowChaser]) and the
    properties of its prefetch / step protocol.

    Conventions.
    - [uint32_t] values are integers of [Z]; the two places where the code
      does arithmetic on them ([jumps_++] and [offs_[..] + jumps_]) wrap
      modulo [2^32] through [u32].
    - A method of the class is a computation of the monad [M]: it reads and
      updates the object, may emit the two externally visible index accesses
      (a prefetch of a side locus, a [mapLF] lookup through a side locus), and
      may stop in an assertion failure or in undefined behaviour.
    - [assert], [assert_neq], [assert_gt] and [ASSERT_ONLY] come from a header
      that is not part of the file.  Their only degree of freedom is whether
      the build compiles assertions in; that choice is the parameter
      [asserts] of every method ([true]: assertions are checked and
      [ASSERT_ONLY] code runs, [false]: both expand to nothing). *)

From Stdlib Require Import ZArith List Bool Lia.
Import ListNotations.
Local Open Scope Z_scope.

(* ------------------------------------------------------------------ *)
(** ** Machine integers *)

Definition u32 (z : Z) : Z := z mod 2 ^ 32.

(** The reserved value [0xffffffff]: "no row" / "offset not computed" /
    "no reference sequence". *)
Definition UNSET : Z := 0xffffffff.

Definition in_u32 (z : Z) : bool := (0 <=? z) && (z <=? UNSET).

(* ------------------------------------------------------------------ *)
(** ** The index and its side loci (external collaborators) *)

(** Modelled from the spec: [SideLocus] is declared in [ebwt.h], which is
    missing.  The spec describes it as an opaque descriptor of where a row's
    data lives, computed from a row, carrying a validity flag and supporting
    a prefetch hint.  The descriptor is represented by the row it was
    computed from. *)
Record SideLocus : Type := mkSideLocus {
  sl_row : Z;
  sl_valid : bool
}.

(** [SideLocus()] *)
Definition SideLocus0 : SideLocus := mkSideLocus UNSET false.

(** [sideloc.initFromRow(row, eh, ebwtPtr)]; [eh] and [ebwtPtr] are constants
    of the index. *)
Definition initFromRow (row : Z) : SideLocus := mkSideLocus row true.

(** [sideloc.invalidate()] *)
Definition invalidate (l : SideLocus) : SideLocus := mkSideLocus (sl_row l) false.

(** [sideloc.valid()] *)
Definition valid (l : SideLocus) : bool := sl_valid l.

Definition SideLocus_eqb (a b : SideLocus) : bool :=
  (sl_row a =? sl_row b) && Bool.eqb (sl_valid a) (sl_valid b).

(** The fields and services of [Ebwt<TStr>] that [RowChaser] consumes.
    [ebwt.h] is missing, so [mapLF] and [joinedToTextOff] are taken as they
    come: arbitrary functions of their arguments.  [joinedToTextOff] returns
    its three reference results [(tidx, textoff, tlen)]. *)
Record Ebwt : Type := mkEbwt {
  offMask : Z;                            (* _eh._offMask *)
  offRate : Z;                            (* _eh._offRate *)
  zOff : Z;                               (* _zOff *)
  offs : list Z;                          (* _offs *)
  mapLF : SideLocus -> Z;
  joinedToTextOff : Z -> Z -> Z * Z * Z
}.

(* ------------------------------------------------------------------ *)
(** ** The object *)

Record RowChaser : Type := mkRowChaser {
  prepped_ : bool;
  ebwt_ : Ebwt;
  qlen_ : Z;
  row_ : Z;
  jumps_ : Z;
  sideloc_ : SideLocus;
  done_ : bool;
  off_ : Z;
  tlen_ : Z
}.

(** The [const] members copied from the index by the constructor. *)
Definition offMask_ (rc : RowChaser) : Z := offMask (ebwt_ rc).
Definition offRate_ (rc : RowChaser) : Z := offRate (ebwt_ rc).
Definition zOff_ (rc : RowChaser) : Z := zOff (ebwt_ rc).
Definition offs_ (rc : RowChaser) : list Z := offs (ebwt_ rc).

(** [RowChaser(ebwt)] *)
Definition RowChaser_new (ebwt : Ebwt) : RowChaser :=
  {| prepped_ := false; ebwt_ := ebwt; qlen_ := 0; row_ := UNSET;
     jumps_ := 0; sideloc_ := SideLocus0; done_ := false; off_ := UNSET;
     tlen_ := 0 |}.

Definition with_prepped (b : bool) (rc : RowChaser) : RowChaser :=
  mkRowChaser b (ebwt_ rc) (qlen_ rc) (row_ rc) (jumps_ rc) (sideloc_ rc)
              (done_ rc) (off_ rc) (tlen_ rc).
Definition with_qlen (q : Z) (rc : RowChaser) : RowChaser :=
  mkRowChaser (prepped_ rc) (ebwt_ rc) q (row_ rc) (jumps_ rc) (sideloc_ rc)
              (done_ rc) (off_ rc) (tlen_ rc).
Definition with_row (r : Z) (rc : RowChaser) : RowChaser :=
  mkRowChaser (prepped_ rc) (ebwt_ rc) (qlen_ rc) r (jumps_ rc) (sideloc_ rc)
              (done_ rc) (off_ rc) (tlen_ rc).
Definition with_jumps (j : Z) (rc : RowChaser) : RowChaser :=
  mkRowChaser (prepped_ rc) (ebwt_ rc) (qlen_ rc) (row_ rc) j (sideloc_ rc)
              (done_ rc) (off_ rc) (tlen_ rc).
Definition with_sideloc (l : SideLocus) (rc : RowChaser) : RowChaser :=
  mkRowChaser (prepped_ rc) (ebwt_ rc) (qlen_ rc) (row_ rc) (jumps_ rc) l
              (done_ rc) (off_ rc) (tlen_ rc).
Definition with_done (d : bool) (rc : RowChaser) : RowChaser :=
  mkRowChaser (prepped_ rc) (ebwt_ rc) (qlen_ rc) (row_ rc) (jumps_ rc)
              (sideloc_ rc) d (off_ rc) (tlen_ rc).
Definition with_off (o : Z) (rc : RowChaser) : RowChaser :=
  mkRowChaser (prepped_ rc) (ebwt_ rc) (qlen_ rc) (row_ rc) (jumps_ rc)
              (sideloc_ rc) (done_ rc) o (tlen_ rc).
Definition with_tlen (t : Z) (rc : RowChaser) : RowChaser :=
  mkRowChaser (prepped_ rc) (ebwt_ rc) (qlen_ rc) (row_ rc) (jumps_ rc)
              (sideloc_ rc) (done_ rc) (off_ rc) t.

(* ------------------------------------------------------------------ *)
(** ** Effects *)

(** The index accesses a method performs, in program order. *)
Inductive Event : Type :=
| EvPrefetch (l : SideLocus)     (* sideloc_.prefetch() *)
| EvMapLF (l : SideLocus).       (* ebwt_.mapLF(sideloc_) *)

Inductive Result (A : Type) : Type :=
| Ok (a : A)          (* the call returned *)
| AssertFail          (* an assertion failed: the process aborts *)
| Undefined           (* read outside offs[], or a shift by 32 or more *)
| OutOfFuel.          (* the loop did not finish within the given fuel *)
Arguments Ok {A} a.
Arguments AssertFail {A}.
Arguments Undefined {A}.
Arguments OutOfFuel {A}.

Definition M (A : Type) : Type :=
  RowChaser -> list Event * Result (A * RowChaser).

Definition ret {A} (a : A) : M A := fun rc => ([], Ok (a, rc)).

Definition bind {A B} (m : M A) (f : A -> M B) : M B :=
  fun rc =>
    match m rc with
    | (ev, Ok (a, rc')) => let (ev', r) := f a rc' in (ev ++ ev', r)
    | (ev, AssertFail) => (ev, AssertFail)
    | (ev, Undefined) => (ev, Undefined)
    | (ev, OutOfFuel) => (ev, OutOfFuel)
    end.

Declare Scope rc_scope.
Delimit Scope rc_scope with rc.
Notation "x <- m ;; k" := (bind m (fun x => k))
  (at level 61, m at next level, right associativity) : rc_scope.
Notation "m ;; k" := (bind m (fun _ => k))
  (at level 61, right associativity) : rc_scope.
Local Open Scope rc_scope.

Definition gets {A} (f : RowChaser -> A) : M A := fun rc => ([], Ok (f rc, rc)).
Definition modify (f : RowChaser -> RowChaser) : M unit :=
  fun rc => ([], Ok (tt, f rc)).
Definition emit (e : Event) : M unit := fun rc => ([e], Ok (tt, rc)).
Definition assert_fail {A} : M A := fun _ => ([], AssertFail).
Definition undefined {A} : M A := fun _ => ([], Undefined).
Definition out_of_fuel {A} : M A := fun _ => ([], OutOfFuel).

(** Events and outcome of a computation, the final object dropped. *)
Definition outcome {A} (r : list Event * Result (A * RowChaser))
  : list Event * Result A :=
  match r with
  | (ev, Ok (a, _)) => (ev, Ok a)
  | (ev, AssertFail) => (ev, AssertFail)
  | (ev, Undefined) => (ev, Undefined)
  | (ev, OutOfFuel) => (ev, OutOfFuel)
  end.

(** [offs_[i]]: a read through a raw pointer, defined inside the array. *)
Definition offs_at (os : list Z) (i : Z) : option Z :=
  if 0 <=? i then nth_error os (Z.to_nat i) else None.

(** The stored offset of a row, [offs[row >> offRate]]; a shift by the width
    of the type or more is undefined. *)
Definition sample (e : Ebwt) (row : Z) : option Z :=
  if offRate e <? 32 then offs_at (offs e) (Z.shiftr row (offRate e)) else None.

(** [(row & offMask) == row] *)
Definition marked (e : Ebwt) (row : Z) : bool :=
  Z.land row (offMask e) =? row.

Section Methods.

(** [true]: assertions are compiled in; [false]: they expand to nothing. *)
Variable asserts : bool.

Definition assert_ (b : bool) : M unit :=
  if asserts then (if b then ret tt else assert_fail) else ret tt.
Definition assert_neq (a b : Z) : M unit := assert_ (negb (a =? b)).
Definition assert_gt (a b : Z) : M unit := assert_ (b <? a).
Definition ASSERT_ONLY (m : M unit) : M unit :=
  if asserts then m else ret tt.

(** [done()] *)
Definition done : M bool := gets done_.

(** [flatOff()] *)
Definition flatOff : M Z := gets off_.

(** [tlen()] *)
Definition tlen : M Z := gets tlen_.

(** [offs_[row_ >> offRate_]] *)
Definition read_offs : M Z :=
  rc <- gets id ;;
  match sample (ebwt_ rc) (row_ rc) with
  | Some v => ret v
  | None => undefined
  end.

(** [prep()] *)
Definition prep : M unit :=
  d <- gets done_ ;;
  (if negb d then
     p <- gets prepped_ ;;
     assert_ (negb p) ;;
     l <- gets sideloc_ ;;
     assert_ (negb (valid l)) ;;
     r <- gets row_ ;;
     modify (with_sideloc (initFromRow r)) ;;
     l <- gets sideloc_ ;;
     emit (EvPrefetch l) ;;
     l <- gets sideloc_ ;;
     assert_ (valid l)
   else ret tt) ;;
  modify (with_prepped true).

(** [setRow(row, qlen)] *)
Definition setRow (row qlen : Z) : M unit :=
  assert_neq UNSET row ;;
  assert_gt qlen 0 ;;
  modify (with_row row) ;;
  modify (with_qlen qlen) ;;
  ASSERT_ONLY (modify (fun rc => with_sideloc (invalidate (sideloc_ rc)) rc)) ;;
  rc <- gets id ;;
  if row_ rc =? zOff_ rc then
    modify (with_off 0) ;;
    modify (with_done true)
  else if marked (ebwt_ rc) (row_ rc) then
    v <- read_offs ;;
    modify (with_off v) ;;
    modify (with_done true)
  else
    modify (with_done false) ;;
    modify (with_jumps 0) ;;
    modify (with_off UNSET) ;;
    modify (with_prepped false) ;;
    prep.

(** [advance()] *)
Definition advance : M unit :=
  d <- gets done_ ;;
  assert_ (negb d) ;;
  p <- gets prepped_ ;;
  assert_ p ;;
  modify (with_prepped false) ;;
  l <- gets sideloc_ ;;
  emit (EvMapLF l) ;;
  e <- gets ebwt_ ;;
  let newrow := mapLF e l in
  ASSERT_ONLY (modify (fun rc => with_sideloc (invalidate (sideloc_ rc)) rc)) ;;
  modify (fun rc => with_jumps (u32 (jumps_ rc + 1)) rc) ;;
  r <- gets row_ ;;
  assert_neq newrow r ;;
  modify (with_row newrow) ;;
  rc <- gets id ;;
  (if row_ rc =? zOff_ rc then
     modify (with_off (jumps_ rc)) ;;
     modify (with_done true)
   else if marked (ebwt_ rc) (row_ rc) then
     v <- read_offs ;;
     modify (with_off (u32 (v + jumps_ rc))) ;;
     modify (with_done true)
   else ret tt) ;;
  prep.

(** [off()] *)
Definition off : M (Z * Z) :=
  o <- flatOff ;;
  assert_neq UNSET o ;;
  e <- gets ebwt_ ;;
  q <- gets qlen_ ;;
  let '(tidx, textoff, tl) := joinedToTextOff e q o in
  modify (with_tlen tl) ;;
  ret (tidx, textoff).

(** [while(!rc.done()) { rc.advance(); }], at most [fuel] tests of the
    condition. *)
Fixpoint drive (fuel : nat) : M unit :=
  match fuel with
  | O => out_of_fuel
  | S fuel' =>
      d <- done ;;
      if negb d then advance ;; drive fuel' else ret tt
  end.

(** [RowChaser::toFlatRefOff(ebwt, qlen, row)] *)
Definition toFlatRefOff (fuel : nat) (ebwt : Ebwt) (qlen row : Z)
  : list Event * Result Z :=
  outcome ((setRow row qlen ;; drive fuel ;; flatOff) (RowChaser_new ebwt)).

(** [RowChaser::toRefOff(ebwt, qlen, row)] *)
Definition toRefOff (fuel : nat) (ebwt : Ebwt) (qlen row : Z)
  : list Event * Result (Z * Z) :=
  outcome ((setRow row qlen ;; drive fuel ;; off) (RowChaser_new ebwt)).

End Methods.

(* ------------------------------------------------------------------ *)
(** ** The caller's side of the protocol *)

(** A driver that gives the resolver at most [n] turns: in each turn it
    calls [advance()] unless [done()] already holds.  This is the loop of
    [toFlatRefOff] stopped after [n] rounds, as an interleaving driver
    stops it to serve another resolver. *)
Fixpoint turns (asserts : bool) (n : nat) : M unit :=
  match n with
  | O => ret tt
  | S n' =>
      d <- done ;;
      if negb d then advance asserts ;; turns asserts n' else ret tt
  end.

(** The backward step from a row, through the locus computed from it. *)
Definition LF (e : Ebwt) (row : Z) : Z := mapLF e (initFromRow row).

Fixpoint LFn (e : Ebwt) (n : nat) (row : Z) : Z :=
  match n with
  | O => row
  | S n' => LFn e n' (LF e row)
  end.

(** Rows with a known offset: the sentinel row and the marked rows. *)
Definition anchor (e : Ebwt) (row : Z) : bool :=
  (row =? zOff e) || marked e row.

Definition anchor_off (e : Ebwt) (row : Z) : option Z :=
  if row =? zOff e then Some 0 else sample e row.

(** What [reset] requires of its row: it is not the reserved value, it is a
    [uint32_t], and if it is marked its sample lies inside [offs]. *)
Definition valid_row (e : Ebwt) (row : Z) : bool :=
  negb (row =? UNSET) && in_u32 row &&
  (if anchor e row then
     match anchor_off e row with Some _ => true | None => false end
   else true).

(** The prefetch discipline as a monitor over the index accesses.  The
    monitor state is the outstanding prefetch, if any.  A prefetch is
    accepted only when none is outstanding; a [mapLF] through a locus is
    accepted only when the outstanding prefetch is for that locus, which it
    consumes.  [None] is rejection. *)
Fixpoint protocol (outstanding : option SideLocus) (evs : list Event)
  : option (option SideLocus) :=
  match evs with
  | [] => Some outstanding
  | EvPrefetch l :: evs' =>
      match outstanding with
      | None => protocol (Some l) evs'
      | Some _ => None
      end
  | EvMapLF l :: evs' =>
      match outstanding with
      | Some l' => if SideLocus_eqb l l' then protocol None evs' else None
      | None => None
      end
  end.

(** The index accesses of [k] steps that start at [row] and meet no anchor. *)
Fixpoint chase_events (e : Ebwt) (row : Z) (k : nat) : list Event :=
  match k with
  | O => []
  | S k' =>
      EvMapLF (initFromRow row) :: EvPrefetch (initFromRow (LF e row))
        :: chase_events e (LF e row) k'
  end.

(* ------------------------------------------------------------------ *)
(** ** Test indexes *)

(** The index of the spec's example: [sampleShift = 2], sentinel row 0,
    backward steps 7 -> 5 -> 2, row 2 marked with [offs[0] = 10]. *)
Definition example_index : Ebwt :=
  {| offMask := 2; offRate := 2; zOff := 0; offs := [10];
     mapLF := fun l => match sl_row l with 7 => 5 | 5 => 2 | _ => 0 end;
     joinedToTextOff := fun q o =>
       if o + q <=? 20 then (0, o, 20) else (UNSET, o, 20) |}.

(** The index of the text [AAACCCAG]: nine rows, suffix array
    [8 0 1 2 6 5 4 3 7], every fourth row sampled ([offRate = 2],
    [offMask = 0xfffffffc]), sentinel row 1. *)
Definition bwt_index : Ebwt :=
  {| offMask := 0xfffffffc; offRate := 2; zOff := 1; offs := [8; 6; 7];
     mapLF := fun l => nth (Z.to_nat (sl_row l)) [8; 0; 1; 2; 5; 6; 7; 3; 4] 0;
     joinedToTextOff := fun q o =>
       if o + q <=? 8 then (0, o, 8) else (UNSET, o, 8) |}.

(** A corrupted index whose backward steps cycle 7 -> 5 -> 7 through
    unmarked rows. *)
Definition cyclic_index : Ebwt :=
  {| offMask := 0xfffffffc; offRate := 2; zOff := 0; offs := [0; 4];
     mapLF := fun l => if sl_row l =? 7 then 5 else 7;
     joinedToTextOff := fun q o => (0, o, 8) |}.

(* ------------------------------------------------------------------ *)
(** ** The wrappers as the spec words them *)

(** "Repeatedly calling [step()] until resolved": from [rc] the calls made
    while the chase is unresolved all return, perform the index accesses
    [evs], and leave the resolved object [rc']. *)
Inductive stepped_until_resolved (asserts : bool)
  : RowChaser -> list Event -> RowChaser -> Prop :=
| sur_resolved rc :
    done_ rc = true ->
    stepped_until_resolved asserts rc [] rc
| sur_step rc ev1 rc1 ev2 rc2 :
    done_ rc = false ->
    advance asserts rc = (ev1, Ok (tt, rc1)) ->
    stepped_until_resolved asserts rc1 ev2 rc2 ->
    stepped_until_resolved asserts rc (ev1 ++ ev2) rc2.

(** [resolveRowToFlatOffset(index, queryLength, row)] in the spec's words:
    construct a fresh resolver, [reset(row, queryLength)], step until
    resolved, read the resolved flat offset. *)
Definition spec_resolveRowToFlatOffset (asserts : bool) (index : Ebwt)
    (queryLength row : Z) (evs : list Event) (result : Z) : Prop :=
  exists ev0 rc1 ev1 rc2,
    setRow asserts row queryLength (RowChaser_new index) = (ev0, Ok (tt, rc1)) /\
    stepped_until_resolved asserts rc1 ev1 rc2 /\
    flatOff rc2 = ([], Ok (result, rc2)) /\
    evs = ev0 ++ ev1.

(** [resolveRowToTextPosition(index, queryLength, row)] in the spec's words:
    the same, reading the resolved text position. *)
Definition spec_resolveRowToTextPosition (asserts : bool) (index : Ebwt)
    (queryLength row : Z) (evs : list Event) (result : Z * Z) : Prop :=
  exists ev0 rc1 ev1 rc2 ev2 rc3,
    setRow asserts row queryLength (RowChaser_new index) = (ev0, Ok (tt, rc1)) /\
    stepped_until_resolved asserts rc1 ev1 rc2 /\
    off asserts rc2 = (ev2, Ok (result, rc3)) /\
    evs = ev0 ++ ev1 ++ ev2.

(* ------------------------------------------------------------------ *)
(** ** Reachable objects *)

(** The objects a caller can hold between two calls: a constructed object,
    and what any returning call of a public method leaves. *)
Inductive reachable (asserts : bool) : RowChaser -> Prop :=
| reach_new ebwt :
    reachable asserts (RowChaser_new ebwt)
| reach_setRow rc row qlen evs rc' :
    reachable asserts rc ->
    setRow asserts row qlen rc = (evs, Ok (tt, rc')) ->
    reachable asserts rc'
| reach_advance rc evs rc' :
    reachable asserts rc ->
    advance asserts rc = (evs, Ok (tt, rc')) ->
    reachable asserts rc'
| reach_prep rc evs rc' :
    reachable asserts rc ->
    prep asserts rc = (evs, Ok (tt, rc')) ->
    reachable asserts rc'
| reach_off rc evs p rc' :
    reachable asserts rc ->
    off asserts rc = (evs, Ok (p, rc')) ->
    reachable asserts rc'.

(** The index invariant of the spec: from every row a finite sequence of
    backward steps leads to the sentinel row or to a marked row. *)
Definition reachability_invariant (e : Ebwt) : Prop :=
  forall row, exists n, anchor e (LFn e n row) = true.

(** The step counter after [k] increments of [jumps_++]. *)
Definition jumps_after (j : Z) (k : nat) : Z :=
  Nat.iter k (fun x => u32 (x + 1)) j.

(** The object in the middle of a chase: unresolved, prefetch issued for
    the locus of its row. *)
Definition awaiting (e : Ebwt) (qlen row jumps off tl : Z) : RowChaser :=
  {| prepped_ := true; ebwt_ := e; qlen_ := qlen; row_ := row;
     jumps_ := jumps; sideloc_ := initFromRow row; done_ := false;
     off_ := off; tlen_ := tl |}.

(** The state of the monitor agrees with the object: a prefetch is
    outstanding exactly while the chase is unresolved, it is the prefetch of
    the locus of the current row, and [prepped_] is set. *)
Definition in_step (o : option SideLocus) (rc : RowChaser) : Prop :=
  if done_ rc then o = None
  else o = Some (initFromRow (row_ rc)) /\
       sideloc_ rc = initFromRow (row_ rc) /\ prepped_ rc = true.

(** An unresolved object holds the reserved offset. *)
Definition unset_while_unresolved (rc : RowChaser) : Prop :=
  done_ rc = false -> off_ rc = UNSET.

(* ------------------------------------------------------------------ *)
(** ** Comparing runs *)

(** The number of [mapLF] lookups among index accesses. *)
Fixpoint lookups (evs : list Event) : nat :=
  match evs with
  | [] => O
  | EvMapLF _ :: evs' => S (lookups evs')
  | EvPrefetch _ :: evs' => lookups evs'
  end.

(** Two objects at the same point of the same chase: the same index, row,
    resolution flag and offset and, while unresolved, the same step count,
    locus and prefetch flag.  [strict] asks for the same query length as
    well.  Nothing is asked of [tlen_]. *)
Definition same_chase (strict : bool) (rc1 rc2 : RowChaser) : Prop :=
  ebwt_ rc1 = ebwt_ rc2 /\ row_ rc1 = row_ rc2 /\
  done_ rc1 = done_ rc2 /\ off_ rc1 = off_ rc2 /\
  (done_ rc1 = false ->
   jumps_ rc1 = jumps_ rc2 /\ sideloc_ rc1 = sideloc_ rc2 /\
   prepped_ rc1 = prepped_ rc2) /\
  (strict = true -> qlen_ rc1 = qlen_ rc2).

(** Two runs with the same index accesses and the same outcome: the same
    failure, or the same value and final objects related by [R]. *)
Definition same_run {A} (R : RowChaser -> RowChaser -> Prop)
    (r1 r2 : list Event * Result (A * RowChaser)) : Prop :=
  fst r1 = fst r2 /\
  match snd r1, snd r2 with
  | Ok (a1, s1), Ok (a2, s2) => a1 = a2 /\ R s1 s2
  | AssertFail, AssertFail => True
  | Undefined, Undefined => True
  | OutOfFuel, OutOfFuel => True
  | _, _ => False
  end.

(** The pair [off()] hands back for a flat offset: the first two results of
    [joinedToTextOff]. *)
Definition text_position (e : Ebwt) (qlen flat : Z) : Z * Z :=
  let '(tidx, textoff, _) := joinedToTextOff e qlen flat in (tidx, textoff).

(* ------------------------------------------------------------------ *)
(** ** Proof tools *)

Ltac red_m :=
  cbv [advance setRow prep off done flatOff tlen read_offs
       assert_ assert_neq assert_gt ASSERT_ONLY
       bind ret gets modify emit assert_fail undefined out_of_fuel id outcome
       with_prepped with_qlen with_row with_jumps with_sideloc with_done
       with_off with_tlen zOff_ offMask_ offRate_ offs_
       valid invalidate initFromRow
       prepped_ ebwt_ qlen_ row_ jumps_ sideloc_ done_ off_ tlen_
       sl_row sl_valid app negb].

(** Split on the first test of the goal that blocks evaluation. *)
Ltac split_test :=
  match goal with
  | H : ?c = _ |- context [if ?c then _ else _] => rewrite H
  | H : ?c = _ |- context [match ?c with Some _ => _ | None => _ end] =>
      rewrite H
  | |- context [if (if ?c then _ else _) then _ else _] => destruct c eqn:?
  | |- context [if ?c then _ else _] => destruct c eqn:?
  | |- context [match ?c with Some _ => _ | None => _ end] => destruct c eqn:?
  end.

(** Evaluate a method call, splitting on every test met on the way.  The
    hypotheses are put in the same normal form first, so that known tests
    are rewritten instead of split. *)
Ltac run_m :=
  unfold LF, initFromRow in *; red_m; repeat (split_test; red_m).

(** Rewrite with the tests already decided. *)
Ltac use_tests :=
  repeat match goal with
         | H : (_ =? zOff _) = _ |- _ => rewrite H
         | H : marked _ _ = _ |- _ => rewrite H
         | H : sample _ _ = _ |- _ => rewrite H
         end.

Lemma u32_small z : 0 <= z <= UNSET -> u32 z = z.
Proof. intros H. unfold u32, UNSET in *. apply Z.mod_small. lia. Qed.

Lemma u32_range z : 0 <= u32 z <= UNSET.
Proof.
  unfold u32, UNSET. pose proof (Z.mod_pos_bound z (2 ^ 32)). lia.
Qed.

Lemma u32_succ z : u32 (u32 z + 1) = u32 (z + 1).
Proof. unfold u32. apply Zplus_mod_idemp_l. Qed.

Lemma u32_add_r a b : u32 (a + u32 b) = u32 (a + b).
Proof. unfold u32. apply Zplus_mod_idemp_r. Qed.

(* ------------------------------------------------------------------ *)
(** ** The methods, case by case *)

Lemma u32_idem z : u32 (u32 z) = u32 z.
Proof. unfold u32. apply Z.mod_mod. lia. Qed.

(** A step from an awaiting object to a row that is no anchor. *)
Lemma advance_awaiting_unresolved asserts e q row j o t :
  (asserts = true -> LF e row <> row) ->
  anchor e (LF e row) = false ->
  advance asserts (awaiting e q row j o t) =
  ([EvMapLF (initFromRow row); EvPrefetch (initFromRow (LF e row))],
   Ok (tt, awaiting e q (LF e row) (u32 (j + 1)) o t)).
Proof.
  intros Hne Ha. unfold anchor in Ha. apply orb_false_elim in Ha.
  destruct Ha as [Hz Hm]. unfold LF in *.
  assert (Hr : asserts = true -> (mapLF e (initFromRow row) =? row) = false).
  { intros H. apply Z.eqb_neq. auto. }
  unfold awaiting.
  destruct asserts; [specialize (Hr eq_refl) | clear Hr]; run_m; reflexivity.
Qed.

(** A step from an awaiting object to an anchor. *)
Lemma advance_awaiting_resolved asserts e q row j o t a :
  (asserts = true -> LF e row <> row) ->
  anchor e (LF e row) = true ->
  anchor_off e (LF e row) = Some a ->
  exists rc',
    advance asserts (awaiting e q row j o t) =
      ([EvMapLF (initFromRow row)], Ok (tt, rc')) /\
    done_ rc' = true /\ ebwt_ rc' = e /\ qlen_ rc' = q /\
    row_ rc' = LF e row /\ jumps_ rc' = u32 (j + 1) /\
    off_ rc' = u32 (a + u32 (j + 1)) /\ tlen_ rc' = t.
Proof.
  intros Hne Ha Hs. unfold anchor in Ha. unfold anchor_off in Hs.
  unfold LF in *.
  assert (Hr : asserts = true -> (mapLF e (initFromRow row) =? row) = false).
  { intros H. apply Z.eqb_neq. auto. }
  unfold awaiting.
  destruct (mapLF e (initFromRow row) =? zOff e) eqn:Hz.
  - injection Hs as <-.
    destruct asserts; [specialize (Hr eq_refl) | clear Hr]; run_m;
      eexists; repeat split; cbn [Z.add]; symmetry; apply u32_idem.
  - cbn [orb] in Ha.
    destruct asserts; [specialize (Hr eq_refl) | clear Hr]; run_m;
      eexists; repeat split.
Qed.

(** What a call of [advance()] on an unresolved object can do. *)
Lemma advance_shape asserts rc evs r :
  done_ rc = false ->
  advance asserts rc = (evs, r) ->
  match r with
  | Ok (_, rc') =>
      (done_ rc' = true /\ evs = [EvMapLF (sideloc_ rc)]) \/
      (done_ rc' = false /\
       evs = [EvMapLF (sideloc_ rc); EvPrefetch (initFromRow (row_ rc'))] /\
       sideloc_ rc' = initFromRow (row_ rc') /\ prepped_ rc' = true /\
       off_ rc' = off_ rc)
  | _ => evs = [] \/ evs = [EvMapLF (sideloc_ rc)]
  end.
Proof.
  intros Hd. destruct rc as [p e q row j l d o t].
  cbn [done_ sideloc_ off_] in *. subst d.
  destruct asserts; run_m; intros H; injection H as <- <-; red_m; auto 6.
Qed.

(** A call of [advance()] never makes a resolved object unresolved. *)
Lemma advance_keeps_done asserts rc evs rc' :
  done_ rc = true ->
  advance asserts rc = (evs, Ok (tt, rc')) ->
  done_ rc' = true.
Proof.
  intros Hd. destruct rc as [p e q row j l d o t].
  cbn [done_] in *. subst d.
  destruct asserts; run_m; intros H; try discriminate;
    injection H as <- <-; reflexivity.
Qed.

(** What a call of [setRow()] can do. *)
Lemma setRow_shape asserts row qlen rc evs r :
  setRow asserts row qlen rc = (evs, r) ->
  match r with
  | Ok (_, rc') =>
      (done_ rc' = true /\ evs = []) \/
      (done_ rc' = false /\ evs = [EvPrefetch (initFromRow row)] /\
       row_ rc' = row /\ sideloc_ rc' = initFromRow row /\
       prepped_ rc' = true /\ off_ rc' = UNSET)
  | _ => evs = []
  end.
Proof.
  destruct rc as [p e q r0 j l d o t].
  destruct asserts; run_m; intros H; injection H as <- <-; red_m; auto 7.
Qed.

(* ------------------------------------------------------------------ *)
(** ** The loops *)

Lemma turns_done asserts n rc :
  done_ rc = true -> turns asserts n rc = ([], Ok (tt, rc)).
Proof.
  intros Hd. destruct n; [reflexivity |].
  cbn [turns]. unfold bind, done, gets, ret. rewrite Hd. reflexivity.
Qed.

Lemma turns_step asserts n rc :
  done_ rc = false ->
  turns asserts (S n) rc =
  match advance asserts rc with
  | (ev, Ok (_, rc')) => let (ev', r) := turns asserts n rc' in (ev ++ ev', r)
  | (ev, AssertFail) => (ev, AssertFail)
  | (ev, Undefined) => (ev, Undefined)
  | (ev, OutOfFuel) => (ev, OutOfFuel)
  end.
Proof.
  intros Hd. cbn [turns]. unfold bind at 1, done, gets. rewrite Hd.
  cbn [negb app]. unfold bind.
  destruct (advance asserts rc) as [ev [[u rc'] | | |]]; try reflexivity.
  destruct (turns asserts n rc'); reflexivity.
Qed.

Lemma drive_done asserts fuel rc :
  done_ rc = true -> drive asserts (S fuel) rc = ([], Ok (tt, rc)).
Proof.
  intros Hd. cbn [drive]. unfold bind, done, gets, ret. rewrite Hd. reflexivity.
Qed.

Lemma drive_step asserts fuel rc :
  done_ rc = false ->
  drive asserts (S fuel) rc =
  match advance asserts rc with
  | (ev, Ok (_, rc')) => let (ev', r) := drive asserts fuel rc' in (ev ++ ev', r)
  | (ev, AssertFail) => (ev, AssertFail)
  | (ev, Undefined) => (ev, Undefined)
  | (ev, OutOfFuel) => (ev, OutOfFuel)
  end.
Proof.
  intros Hd. cbn [drive]. unfold bind at 1, done, gets. rewrite Hd.
  cbn [negb app]. unfold bind.
  destruct (advance asserts rc) as [ev [[u rc'] | | |]]; try reflexivity.
  destruct (drive asserts fuel rc'); reflexivity.
Qed.

(** The loop of the wrappers performs the index accesses of the driver. *)
Lemma drive_events asserts n : forall rc,
  fst (drive asserts n rc) = fst (turns asserts n rc).
Proof.
  induction n as [| n IH]; intros rc; [reflexivity |].
  destruct (done_ rc) eqn:Hd.
  - rewrite drive_done, turns_done by assumption. reflexivity.
  - rewrite drive_step, turns_step by assumption.
    destruct (advance asserts rc) as [ev [[u rc'] | | |]]; try reflexivity.
    specialize (IH rc').
    destruct (drive asserts n rc'), (turns asserts n rc'). cbn in *.
    congruence.
Qed.

(** A driver that reaches resolution in [n] turns is the loop with one more
    test. *)
Lemma drive_of_turns asserts n : forall rc ev rc',
  turns asserts n rc = (ev, Ok (tt, rc')) ->
  done_ rc' = true ->
  drive asserts (S n) rc = (ev, Ok (tt, rc')).
Proof.
  induction n as [| n IH]; intros rc ev rc' Ht Hd'.
  - cbn in Ht. injection Ht as <- <-. apply drive_done. assumption.
  - destruct (done_ rc) eqn:Hd.
    + rewrite turns_done in Ht by assumption. injection Ht as <- <-.
      apply drive_done. assumption.
    + rewrite turns_step in Ht by assumption. rewrite drive_step by assumption.
      destruct (advance asserts rc) as [e1 [[u rc1] | | |]]; try discriminate.
      destruct (turns asserts n rc1) as [e2 r2] eqn:Ht1.
      injection Ht as <- ->. rewrite (IH _ _ _ Ht1 Hd'). reflexivity.
Qed.

(** More fuel does not change a result. *)
Lemma drive_fuel_mono asserts n : forall m rc ev rc',
  (n <= m)%nat ->
  drive asserts n rc = (ev, Ok (tt, rc')) ->
  drive asserts m rc = (ev, Ok (tt, rc')).
Proof.
  induction n as [| n IH]; intros m rc ev rc' Hle Hdr; [discriminate |].
  destruct m as [| m]; [lia |].
  destruct (done_ rc) eqn:Hd.
  - rewrite drive_done in * by assumption. assumption.
  - rewrite drive_step in * by assumption.
    destruct (advance asserts rc) as [e1 [[u rc1] | | |]]; try discriminate.
    destruct (drive asserts n rc1) as [e2 r2] eqn:Hd1.
    injection Hdr as <- ->. rewrite (IH m _ _ _ ltac:(lia) Hd1). reflexivity.
Qed.

Lemma drive_sound asserts fuel : forall rc ev rc',
  drive asserts fuel rc = (ev, Ok (tt, rc')) ->
  stepped_until_resolved asserts rc ev rc'.
Proof.
  induction fuel as [| fuel IH]; intros rc ev rc' Hdr; [discriminate |].
  destruct (done_ rc) eqn:Hd.
  - rewrite drive_done in Hdr by assumption. injection Hdr as <- <-.
    constructor. assumption.
  - rewrite drive_step in Hdr by assumption.
    destruct (advance asserts rc) as [e1 [[[] rc1] | | |]] eqn:Ha;
      try discriminate.
    destruct (drive asserts fuel rc1) as [e2 r2] eqn:Hd1.
    injection Hdr as <- ->. econstructor; eauto.
Qed.

Lemma drive_complete asserts rc ev rc' :
  stepped_until_resolved asserts rc ev rc' ->
  exists fuel, drive asserts fuel rc = (ev, Ok (tt, rc')).
Proof.
  induction 1 as [rc Hd | rc ev1 rc1 ev2 rc2 Hd Ha _ [fuel IH]].
  - exists 1%nat. apply drive_done. assumption.
  - exists (S fuel). rewrite drive_step by assumption. rewrite Ha, IH.
    reflexivity.
Qed.

(** Sequencing, with the first computation's result at hand. *)
Lemma bind_ok {A B} (m : M A) (f : A -> M B) rc ev a rc1 :
  m rc = (ev, Ok (a, rc1)) ->
  bind m f rc = (ev ++ fst (f a rc1), snd (f a rc1)).
Proof. intros H. unfold bind. rewrite H. destruct (f a rc1); reflexivity. Qed.

Lemma bind_inv {A B} (m : M A) (f : A -> M B) rc ev b rc2 :
  bind m f rc = (ev, Ok (b, rc2)) ->
  exists ev1 a rc1 ev2,
    m rc = (ev1, Ok (a, rc1)) /\ f a rc1 = (ev2, Ok (b, rc2)) /\
    ev = ev1 ++ ev2.
Proof.
  unfold bind. destruct (m rc) as [ev1 [[a rc1] | | |]]; try discriminate.
  destruct (f a rc1) as [ev2 r] eqn:Hf. intros H. injection H as <- ->.
  eauto 8.
Qed.

Lemma outcome_ok {A} (r : list Event * Result (A * RowChaser)) ev a :
  outcome r = (ev, Ok a) <-> exists rc, r = (ev, Ok (a, rc)).
Proof.
  destruct r as [ev' [[a' rc'] | | |]]; cbn; split;
    try discriminate; try (intros [rc H]; discriminate).
  - intros H. injection H as <- <-. eauto.
  - intros [rc H]. injection H as <- <- _. reflexivity.
Qed.

(* ------------------------------------------------------------------ *)
(** ** A chase along a chain of rows *)

Lemma jumps_after_succ j k : jumps_after (u32 (j + 1)) k = jumps_after j (S k).
Proof. unfold jumps_after. rewrite Nat.iter_succ_r. reflexivity. Qed.

Lemma jumps_after_0 k : jumps_after 0 k = u32 (Z.of_nat k).
Proof.
  induction k as [| k IH]; [reflexivity |].
  change (jumps_after 0 (S k)) with (u32 (jumps_after 0 k + 1)).
  rewrite IH, u32_succ. f_equal. lia.
Qed.

Lemma LFn_succ e k row : LFn e (S k) row = LF e (LFn e k row).
Proof. revert row. induction k as [| k IH]; intros row; [reflexivity |].
  cbn [LFn] in *. rewrite IH. reflexivity. Qed.

(** [k] steps along a chain that meets no anchor. *)
Lemma turns_awaiting asserts e q o t k : forall row j,
  (forall i, (i < k)%nat -> anchor e (LFn e (S i) row) = false) ->
  (asserts = true ->
   forall i, (i < k)%nat -> LFn e (S i) row <> LFn e i row) ->
  turns asserts k (awaiting e q row j o t) =
  (chase_events e row k,
   Ok (tt, awaiting e q (LFn e k row) (jumps_after j k) o t)).
Proof.
  induction k as [| k IH]; intros row j Hun Hne; [reflexivity |].
  rewrite turns_step by reflexivity.
  rewrite advance_awaiting_unresolved.
  - rewrite IH.
    + cbn [chase_events LFn app]. rewrite jumps_after_succ. reflexivity.
    + intros i Hi. apply (Hun (S i)). lia.
    + intros Ha i Hi. apply (Hne Ha (S i)). lia.
  - intros Ha. apply (Hne Ha 0%nat). lia.
  - apply (Hun 0%nat). lia.
Qed.

Lemma setRow_awaiting asserts rc row qlen :
  row <> UNSET -> 0 < qlen -> anchor (ebwt_ rc) row = false ->
  setRow asserts row qlen rc =
  ([EvPrefetch (initFromRow row)],
   Ok (tt, awaiting (ebwt_ rc) qlen row 0 UNSET (tlen_ rc))).
Proof.
  intros Hr Hq Ha. unfold anchor in Ha. apply orb_false_elim in Ha.
  destruct Ha as [Hz Hm].
  assert (Hq' : (0 <? qlen) = true) by (apply Z.ltb_lt; lia).
  assert (Hr' : (UNSET =? row) = false) by (apply Z.eqb_neq; congruence).
  destruct rc as [p e q r j l d o t]. cbn [ebwt_ tlen_] in *.
  unfold awaiting. destruct asserts; run_m; reflexivity.
Qed.

(** [n + k] turns are [n] turns followed by [k] turns. *)
Lemma turns_add asserts n k : forall rc,
  turns asserts (n + k) rc = (turns asserts n ;; turns asserts k) rc.
Proof.
  induction n as [| n IH]; intros rc.
  - cbn [Nat.add turns]. unfold bind, ret.
    destruct (turns asserts k rc); reflexivity.
  - cbn [Nat.add]. destruct (done_ rc) eqn:Hd.
    + unfold bind. rewrite (turns_done asserts (S (n + k))) by assumption.
      rewrite (turns_done asserts (S n)) by assumption. cbv iota beta.
      rewrite turns_done by assumption. reflexivity.
    + unfold bind. rewrite !turns_step by assumption.
      destruct (advance asserts rc) as [e1 [[u rc1] | | |]]; try reflexivity.
      rewrite IH. unfold bind.
      destruct (turns asserts n rc1) as [e2 [[u2 rc2] | | |]]; try reflexivity.
      destruct (turns asserts k rc2) as [e3 r3]. rewrite app_assoc.
      reflexivity.
Qed.

Lemma turns_one asserts rc :
  done_ rc = false -> turns asserts 1 rc = advance asserts rc.
Proof.
  intros Hd. rewrite turns_step by assumption. cbn [turns ret].
  destruct (advance asserts rc) as [e1 [[[] rc1] | | |]]; try reflexivity.
  rewrite app_nil_r. reflexivity.
Qed.

(* ------------------------------------------------------------------ *)
(** ** The prefetch discipline *)

Lemma SideLocus_eqb_refl l : SideLocus_eqb l l = true.
Proof.
  unfold SideLocus_eqb. rewrite Z.eqb_refl, Bool.eqb_reflx. reflexivity.
Qed.

Lemma protocol_app evs1 : forall o evs2,
  protocol o (evs1 ++ evs2) =
  match protocol o evs1 with
  | Some o' => protocol o' evs2
  | None => None
  end.
Proof.
  induction evs1 as [| [l | l] evs1 IH]; intros o evs2; cbn [protocol app].
  - reflexivity.
  - destruct o; [reflexivity | apply IH].
  - destruct o as [l' |]; [| reflexivity].
    destruct (SideLocus_eqb l l'); [apply IH | reflexivity].
Qed.

Lemma turns_protocol asserts n : forall rc evs r,
  done_ rc = false ->
  sideloc_ rc = initFromRow (row_ rc) ->
  prepped_ rc = true ->
  turns asserts n rc = (evs, r) ->
  exists o,
    protocol (Some (initFromRow (row_ rc))) evs = Some o /\
    match r with
    | Ok (_, rc') => in_step o rc'
    | _ => True
    end.
Proof.
  induction n as [| n IH]; intros rc evs r Hd Hl Hp Ht.
  - cbn in Ht. injection Ht as <- <-. eexists. split; [reflexivity |].
    unfold in_step. rewrite Hd. auto.
  - rewrite turns_step in Ht by assumption.
    destruct (advance asserts rc) as [ev1 r1] eqn:Ha.
    pose proof (advance_shape _ _ _ _ Hd Ha) as Hs. rewrite Hl in Hs.
    destruct r1 as [[[] rc1] | | |].
    + destruct Hs as [[Hd1 ->] | (Hd1 & -> & Hl1 & Hp1 & _)].
      * rewrite turns_done in Ht by assumption. injection Ht as <- <-.
        cbn [app protocol]. rewrite SideLocus_eqb_refl.
        eexists. split; [reflexivity |]. unfold in_step. rewrite Hd1.
        reflexivity.
      * destruct (turns asserts n rc1) as [ev2 r2] eqn:Ht1.
        injection Ht as <- <-.
        destruct (IH _ _ _ Hd1 Hl1 Hp1 Ht1) as (o & Ho & Hr).
        exists o. split; [| exact Hr].
        cbn [app protocol]. rewrite SideLocus_eqb_refl. exact Ho.
    + injection Ht as <- <-. destruct Hs as [-> | ->]; cbn [protocol];
        rewrite ?SideLocus_eqb_refl; eauto.
    + injection Ht as <- <-. destruct Hs as [-> | ->]; cbn [protocol];
        rewrite ?SideLocus_eqb_refl; eauto.
    + injection Ht as <- <-. destruct Hs as [-> | ->]; cbn [protocol];
        rewrite ?SideLocus_eqb_refl; eauto.
Qed.

Lemma chase_protocol asserts rc0 row qlen n evs r :
  (setRow asserts row qlen ;; turns asserts n) rc0 = (evs, r) ->
  exists o,
    protocol None evs = Some o /\
    match r with
    | Ok (_, rc') => in_step o rc'
    | _ => True
    end.
Proof.
  unfold bind. destruct (setRow asserts row qlen rc0) as [ev0 r0] eqn:Hs.
  pose proof (setRow_shape _ _ _ _ _ _ Hs) as Hsh.
  destruct r0 as [[[] rc1] | | |].
  - destruct (turns asserts n rc1) as [ev1 r1] eqn:Ht.
    intros H. injection H as <- <-.
    destruct Hsh as [[Hd ->] | (Hd & -> & Hr & Hl & Hp & _)].
    + rewrite turns_done in Ht by assumption. injection Ht as <- <-.
      exists None. split; [reflexivity |]. unfold in_step. rewrite Hd.
      reflexivity.
    + rewrite <- Hr in Hl.
      destruct (turns_protocol _ _ _ _ _ Hd Hl Hp Ht) as (o & Ho & Hres).
      exists o. split; [| exact Hres]. cbn [app protocol].
      rewrite <- Hr. exact Ho.
  - intros H. injection H as <- <-. subst ev0. exists None. split; reflexivity.
  - intros H. injection H as <- <-. subst ev0. exists None. split; reflexivity.
  - intros H. injection H as <- <-. subst ev0. exists None. split; reflexivity.
Qed.

Lemma bind_events_cong {A} (m : M A) (f g : A -> M unit) rc :
  (forall a rc', fst (f a rc') = fst (g a rc')) ->
  fst (bind m f rc) = fst (bind m g rc).
Proof.
  intros H. unfold bind. destruct (m rc) as [ev [[a rc'] | | |]]; try reflexivity.
  specialize (H a rc'). destruct (f a rc'), (g a rc'). cbn in *. congruence.
Qed.

(* ------------------------------------------------------------------ *)
(** ** The reserved offset *)

Lemma setRow_unset asserts row qlen rc evs rc' :
  setRow asserts row qlen rc = (evs, Ok (tt, rc')) ->
  unset_while_unresolved rc'.
Proof.
  intros H. apply setRow_shape in H.
  destruct H as [[Hd _] | (_ & _ & _ & _ & _ & Ho)]; intros Hd'; congruence.
Qed.

Lemma advance_unset asserts rc evs rc' :
  unset_while_unresolved rc ->
  advance asserts rc = (evs, Ok (tt, rc')) ->
  unset_while_unresolved rc'.
Proof.
  intros Hi Ha Hd'. destruct (done_ rc) eqn:Hd.
  - rewrite (advance_keeps_done _ _ _ _ Hd Ha) in Hd'. discriminate.
  - apply (advance_shape _ _ _ _ Hd) in Ha.
    destruct Ha as [[Hd1 _] | (_ & _ & _ & _ & Ho)]; [congruence |].
    rewrite Ho. apply Hi. exact Hd.
Qed.

Lemma prep_unset asserts rc evs rc' :
  unset_while_unresolved rc ->
  prep asserts rc = (evs, Ok (tt, rc')) ->
  unset_while_unresolved rc'.
Proof.
  unfold unset_while_unresolved. destruct rc as [p e q r j l d o t].
  cbn [done_ off_]. intros Hi.
  destruct asserts; run_m; intros H; try discriminate;
    injection H as <- <-; red_m; auto.
Qed.

Lemma off_unset asserts rc evs p rc' :
  unset_while_unresolved rc ->
  off asserts rc = (evs, Ok (p, rc')) ->
  unset_while_unresolved rc'.
Proof.
  unfold unset_while_unresolved. destruct rc as [pp e q r j l d o t].
  cbn [done_ off_]. intros Hi. unfold off.
  destruct (joinedToTextOff e q o) as [[tidx textoff] tl] eqn:Hj.
  destruct asserts; run_m; try rewrite Hj; red_m; intros H; try discriminate;
    injection H as <- <- <-; red_m; auto.
Qed.

(** The whole chase from [setRow] to the first anchor of the chain, reached
    after [S m] steps. *)
Lemma chase_run asserts rc0 row qlen m a :
  let e := ebwt_ rc0 in
  row <> UNSET -> 0 < qlen ->
  (forall i, (i <= m)%nat -> anchor e (LFn e i row) = false) ->
  anchor e (LFn e (S m) row) = true ->
  anchor_off e (LFn e (S m) row) = Some a ->
  (asserts = true ->
   forall i, (i <= m)%nat -> LFn e (S i) row <> LFn e i row) ->
  exists rc',
    (setRow asserts row qlen ;; turns asserts (S m)) rc0 =
      (EvPrefetch (initFromRow row)
         :: chase_events e row m ++ [EvMapLF (initFromRow (LFn e m row))],
       Ok (tt, rc')) /\
    done_ rc' = true /\
    jumps_ rc' = u32 (Z.of_nat (S m)) /\
    off_ rc' = u32 (a + Z.of_nat (S m)).
Proof.
  intros e Hrow Hq Hun Han Hoff Hne.
  assert (Ha0 : anchor e row = false) by (apply (Hun 0%nat); lia).
  pose proof (setRow_awaiting asserts rc0 row qlen Hrow Hq Ha0) as Hset.
  fold e in Hset.
  assert (Hpre : turns asserts m (awaiting e qlen row 0 UNSET (tlen_ rc0)) =
                 (chase_events e row m,
                  Ok (tt, awaiting e qlen (LFn e m row) (jumps_after 0 m)
                                   UNSET (tlen_ rc0)))).
  { apply turns_awaiting.
    - intros i Hi. apply Hun. lia.
    - intros H i Hi. apply Hne; [assumption | lia]. }
  rewrite LFn_succ in Han, Hoff.
  destruct (advance_awaiting_resolved asserts e qlen (LFn e m row)
              (jumps_after 0 m) UNSET (tlen_ rc0) a)
    as (rc' & Hadv & Hd & _ & _ & _ & Hj & Ho & _); trivial.
  { intros H. rewrite <- LFn_succ. apply Hne; [assumption | lia]. }
  rewrite jumps_after_0, u32_succ in Hj, Ho.
  replace (Z.of_nat m + 1) with (Z.of_nat (S m)) in Hj, Ho by lia.
  rewrite u32_add_r in Ho.
  exists rc'. repeat split; trivial.
  rewrite (bind_ok _ _ _ _ _ _ Hset).
  replace (S m) with (m + 1)%nat by lia. rewrite turns_add.
  rewrite (bind_ok _ _ _ _ _ _ Hpre). rewrite turns_one by reflexivity.
  rewrite Hadv. reflexivity.
Qed.

(** The steps of a chase before its first anchor. *)
Lemma chase_prefix asserts rc0 row qlen k :
  let e := ebwt_ rc0 in
  row <> UNSET -> 0 < qlen ->
  (forall i, (i <= k)%nat -> anchor e (LFn e i row) = false) ->
  (asserts = true ->
   forall i, (i < k)%nat -> LFn e (S i) row <> LFn e i row) ->
  (setRow asserts row qlen ;; turns asserts k) rc0 =
    (EvPrefetch (initFromRow row) :: chase_events e row k,
     Ok (tt, awaiting e qlen (LFn e k row) (jumps_after 0 k) UNSET
                      (tlen_ rc0))).
Proof.
  intros e Hrow Hq Hun Hne.
  assert (Ha0 : anchor e row = false) by (apply (Hun 0%nat); lia).
  rewrite (bind_ok _ _ _ _ _ _ (setRow_awaiting asserts rc0 row qlen Hrow Hq Ha0)).
  fold e. rewrite turns_awaiting; [reflexivity | |].
  - intros i Hi. apply Hun. lia.
  - intros H i Hi. apply Hne; [assumption | lia].
Qed.

(** A chase that the driver resolves in [n] turns is resolved by the loop of
    the wrappers with any fuel above [n]. *)
Lemma wrapper_of_turns asserts row qlen n fuel rc0 ev rc' :
  (setRow asserts row qlen ;; turns asserts n) rc0 = (ev, Ok (tt, rc')) ->
  done_ rc' = true -> (n < fuel)%nat ->
  (setRow asserts row qlen ;; drive asserts fuel ;; flatOff) rc0 =
    (ev, Ok (off_ rc', rc')).
Proof.
  intros H Hd Hf. apply bind_inv in H.
  destruct H as (ev0 & [] & rc1 & ev1 & Hs & Ht & ->).
  pose proof (drive_of_turns _ _ _ _ _ Ht Hd) as Hdr.
  apply (drive_fuel_mono _ _ fuel) in Hdr; [| lia].
  rewrite (bind_ok _ _ _ _ _ _ Hs). rewrite (bind_ok _ _ _ _ _ _ Hdr).
  unfold flatOff, gets. cbn [fst snd]. rewrite app_nil_r. reflexivity.
Qed.

(** Every row of [bwt_index] leads to an anchor. *)
Lemma bwt_index_reachability : reachability_invariant bwt_index.
Proof.
  intros row.
  assert (H : row <= 0 \/ row = 1 \/ row = 2 \/ row = 3 \/ row = 4 \/
              row = 5 \/ row = 6 \/ row = 7 \/ row = 8 \/ 9 <= row) by lia.
  destruct H as [H | [-> | [-> | [-> | [-> | [-> | [-> | [-> | [-> | H]]]]]]]]].
  - exists 1%nat. cbn [LFn]. unfold LF, bwt_index at 2.
    cbn [mapLF sl_row initFromRow].
    replace (Z.to_nat row) with 0%nat by lia. reflexivity.
  - exists 0%nat. reflexivity.
  - exists 1%nat. reflexivity.
  - exists 2%nat. reflexivity.
  - exists 0%nat. reflexivity.
  - exists 5%nat. reflexivity.
  - exists 4%nat. reflexivity.
  - exists 3%nat. reflexivity.
  - exists 0%nat. reflexivity.
  - exists 1%nat. cbn [LFn]. unfold LF, bwt_index at 2.
    cbn [mapLF sl_row initFromRow].
    rewrite nth_overflow by (cbn [length]; lia). reflexivity.
Qed.

(* ------------------------------------------------------------------ *)
(** ** The claims *)

(** C1. For every valid row and every query length above 0, [setRow]
    returns and: if the row is the sentinel row the chase is resolved with
    flat offset 0 and no index access; else if the row is marked, it is
    resolved with flat offset [offs[row >> offRate]] and no index access;
    otherwise it is unresolved with [jumps_ = 0], the reserved offset, and
    exactly one index access, the prefetch of the locus of the row, which
    [sideloc_] holds and [prepped_] records.  This holds with and without
    assertions compiled in, from any object. *)
Theorem setRow_resolves_or_prefetches asserts rc row qlen :
  valid_row (ebwt_ rc) row = true -> 0 < qlen ->
  let e := ebwt_ rc in
  exists evs rc',
    setRow asserts row qlen rc = (evs, Ok (tt, rc')) /\
    ebwt_ rc' = e /\ row_ rc' = row /\ qlen_ rc' = qlen /\
    if row =? zOff e then
      evs = [] /\ done_ rc' = true /\ off_ rc' = 0
    else if marked e row then
      evs = [] /\ done_ rc' = true /\ Some (off_ rc') = sample e row
    else
      evs = [EvPrefetch (initFromRow row)] /\ done_ rc' = false /\
      jumps_ rc' = 0 /\ prepped_ rc' = true /\
      sideloc_ rc' = initFromRow row /\ off_ rc' = UNSET.
Proof.
  intros Hv Hq e. subst e.
  unfold valid_row, anchor, anchor_off in Hv.
  destruct rc as [p e q r j l d o t]. cbn [ebwt_] in *.
  assert (Hq' : (0 <? qlen) = true) by (apply Z.ltb_lt; lia).
  assert (Hr : (UNSET =? row) = false).
  { rewrite Z.eqb_sym. destruct (row =? UNSET); [discriminate | reflexivity]. }
  destruct (row =? zOff e) eqn:Hz; [| destruct (marked e row) eqn:Hm].
  - destruct asserts; run_m; eexists _, _; repeat split; reflexivity.
  - cbn [orb] in Hv. destruct (sample e row) as [v|] eqn:Hs.
    2:{ rewrite andb_false_r in Hv. discriminate. }
    destruct asserts; run_m; eexists _, _; repeat split; reflexivity.
  - destruct asserts; run_m; eexists _, _; repeat split; reflexivity.
Qed.

Lemma setRow_resolves_or_prefetches_witness :
  valid_row example_index 7 = true /\ 0 < 4 /\
  exists rc',
    setRow true 7 4 (RowChaser_new example_index)
      = ([EvPrefetch (initFromRow 7)], Ok (tt, rc')) /\
    done_ rc' = false /\ jumps_ rc' = 0 /\ prepped_ rc' = true.
Proof.
  split; [reflexivity |]. split; [lia |].
  destruct (setRow_resolves_or_prefetches true (RowChaser_new example_index)
              7 4 eq_refl eq_refl)
    as (evs & rc' & Hs & _ & _ & _ & Hc).
  vm_compute in Hc. destruct Hc as (He & Hd & Hj & Hp & _).
  exists rc'. rewrite Hs, He. repeat split; assumption.
Defined.

(** C2. For every object that is unresolved with [prepped_] set, one call
    of [advance()] looks up [newrow = mapLF(sideloc_)], increments [jumps_]
    by one (as a [uint32_t]) and sets [row_ = newrow]; then, if [newrow] is
    the sentinel row, the chase is resolved with offset [jumps_]; else if
    [newrow] is marked, it is resolved with offset
    [offs[newrow >> offRate] + jumps_] (as a [uint32_t]); otherwise the
    locus of [newrow] is prefetched and the chase stays unresolved.  With
    assertions compiled in, [newrow] must differ from the row stepped from. *)
Theorem advance_step asserts rc :
  done_ rc = false -> prepped_ rc = true ->
  let e := ebwt_ rc in
  let newrow := mapLF e (sideloc_ rc) in
  let steps := u32 (jumps_ rc + 1) in
  (asserts = true -> newrow <> row_ rc) ->
  (anchor e newrow = true -> anchor_off e newrow <> None) ->
  exists evs rc',
    advance asserts rc = (evs, Ok (tt, rc')) /\
    ebwt_ rc' = e /\ qlen_ rc' = qlen_ rc /\
    row_ rc' = newrow /\ jumps_ rc' = steps /\
    (0 <= jumps_ rc < UNSET -> steps = jumps_ rc + 1) /\
    if newrow =? zOff e then
      evs = [EvMapLF (sideloc_ rc)] /\ done_ rc' = true /\ off_ rc' = steps
    else if marked e newrow then
      evs = [EvMapLF (sideloc_ rc)] /\ done_ rc' = true /\
      exists v, sample e newrow = Some v /\ off_ rc' = u32 (v + steps) /\
                (0 <= v /\ v + steps <= UNSET -> off_ rc' = v + steps)
    else
      evs = [EvMapLF (sideloc_ rc); EvPrefetch (initFromRow newrow)] /\
      done_ rc' = false /\ prepped_ rc' = true /\
      sideloc_ rc' = initFromRow newrow /\ off_ rc' = off_ rc.
Proof.
  intros Hd Hp e newrow steps Hneq Hs. subst e newrow steps.
  unfold anchor, anchor_off in Hs.
  destruct rc as [p e q r j l d o t].
  cbn [ebwt_ done_ prepped_ sideloc_ row_ jumps_ off_ qlen_] in *.
  subst d p.
  assert (Hj : 0 <= j < UNSET -> u32 (j + 1) = j + 1).
  { intros H. apply u32_small. lia. }
  assert (Hr : asserts = true -> (mapLF e l =? r) = false).
  { intros H. apply Z.eqb_neq. auto. }
  destruct asserts; [specialize (Hr eq_refl) | clear Hr];
    (destruct (mapLF e l =? zOff e) eqn:Hz;
     [| destruct (marked e (mapLF e l)) eqn:Hm;
        [cbn [orb] in Hs;
         destruct (sample e (mapLF e l)) as [v|] eqn:Hv;
         [| exfalso; apply Hs; reflexivity] |]]);
    run_m; eexists _, _; repeat split; try reflexivity; try exact Hj;
    exists v; repeat split; try reflexivity;
    intros [H0 H1]; apply u32_small; pose proof (u32_range (j + 1)); lia.
Qed.

Lemma advance_step_witness :
  exists rc',
    advance true (awaiting example_index 4 5 1 UNSET 0)
      = ([EvMapLF (initFromRow 5)], Ok (tt, rc')) /\
    row_ rc' = 2 /\ jumps_ rc' = 2 /\ done_ rc' = true /\ off_ rc' = 12.
Proof.
  destruct (advance_step true (awaiting example_index 4 5 1 UNSET 0)
              eq_refl eq_refl)
    as (evs & rc' & Ha & _ & _ & Hr & Hj & _ & Hc).
  - vm_compute. discriminate.
  - vm_compute. discriminate.
  - change (mapLF _ _ =? zOff _) with false in Hc.
    change (marked _ _) with true in Hc. cbv iota in Hc.
    destruct Hc as (He & Hd & v & Hv & Ho & _).
    vm_compute in Hv. injection Hv as <-. vm_compute in Hr, Hj, Ho.
    exists rc'. rewrite Ha, He. repeat split; assumption.
Defined.

(** C3 (as amended).  For every unmarked, non-sentinel starting row whose
    chain of backward steps meets its first anchor (the sentinel row or a
    marked row) after [n] steps, the chase resolves after exactly [n] calls
    of [advance()], [n] is at least 1, and the resolved flat offset is the
    anchor's known offset plus [n] (as a [uint32_t]; the plain sum when it
    fits).  The loop of [toFlatRefOff] returns that offset with fuel [n + 1].
    The number [n] is decided by the chain alone: nothing bounds it by the
    sampling interval [2 ^ offRate]. *)
Theorem chase_resolves_at_first_anchor asserts rc0 row qlen n a :
  let e := ebwt_ rc0 in
  row <> UNSET -> 0 < qlen ->
  anchor e row = false ->
  (forall i, (i < n)%nat -> anchor e (LFn e i row) = false) ->
  anchor e (LFn e n row) = true ->
  anchor_off e (LFn e n row) = Some a ->
  (asserts = true ->
   forall i, (i < n)%nat -> LFn e (S i) row <> LFn e i row) ->
  (1 <= n)%nat /\
  (forall k, (k < n)%nat ->
     exists evs rc',
       (setRow asserts row qlen ;; turns asserts k) rc0 = (evs, Ok (tt, rc')) /\
       done_ rc' = false) /\
  (exists evs rc',
     (setRow asserts row qlen ;; turns asserts n) rc0 = (evs, Ok (tt, rc')) /\
     done_ rc' = true /\
     jumps_ rc' = u32 (Z.of_nat n) /\
     off_ rc' = u32 (a + Z.of_nat n) /\
     (0 <= a /\ a + Z.of_nat n <= UNSET -> off_ rc' = a + Z.of_nat n) /\
     (setRow asserts row qlen ;; drive asserts (S n) ;; flatOff) rc0 =
       (evs, Ok (u32 (a + Z.of_nat n), rc'))).
Proof.
  intros e Hrow Hq Ha0 Hun Han Hoff Hne.
  destruct n as [| m]; [cbn in Han; congruence |].
  split; [lia |]. split.
  - intros k Hk. eexists _, _. split.
    + apply chase_prefix; trivial.
      * intros i Hi. apply Hun. lia.
      * intros H i Hi. apply Hne; [assumption | lia].
    + reflexivity.
  - destruct (chase_run asserts rc0 row qlen m a) as (rc' & Hrun & Hd & Hj & Ho);
      trivial.
    + intros i Hi. apply Hun. lia.
    + intros H i Hi. apply Hne; [assumption | lia].
    + eexists _, rc'. split; [exact Hrun |]. repeat split; trivial.
      * intros H. rewrite Ho. apply u32_small. lia.
      * rewrite <- Ho. apply (wrapper_of_turns _ _ _ (S m)); trivial. lia.
Qed.

Lemma chase_resolves_at_first_anchor_witness :
  exists evs rc',
    (setRow true 5 1 ;; drive true 6 ;; flatOff) (RowChaser_new bwt_index)
      = (evs, Ok (5, rc')) /\
    done_ rc' = true /\ jumps_ rc' = 5.
Proof.
  destruct (chase_resolves_at_first_anchor true (RowChaser_new bwt_index)
              5 1 5 0)
    as (_ & _ & evs & rc' & _ & Hd & Hj & _ & _ & Hw).
  - discriminate.
  - lia.
  - reflexivity.
  - intros i Hi. do 5 (destruct i as [| i]; [reflexivity |]). lia.
  - reflexivity.
  - reflexivity.
  - intros _ i Hi.
    do 5 (destruct i as [| i]; [vm_compute; discriminate |]). lia.
  - exists evs, rc'. repeat split; assumption.
Defined.

(** C3, the claim as stated, fails.  [bwt_index] is the index of the text
    [AAACCCAG] with every fourth row sampled (sampling interval 4).  It
    satisfies the reachability invariant, row 5 is neither marked nor the
    sentinel row, and the chase from row 5 is still unresolved after 4 calls
    of [advance()]: it walks 5 -> 6 -> 7 -> 3 -> 2 -> 1 and resolves at the
    sentinel row after 5 calls, with flat offset 5. *)
Lemma long_chase_exceeds_interval :
  reachability_invariant bwt_index /\
  marked bwt_index 5 = false /\ 5 <> zOff bwt_index /\
  2 ^ offRate bwt_index = 4 /\
  snd ((setRow true 5 1 ;; turns true 4) (RowChaser_new bwt_index))
    = Ok (tt, awaiting bwt_index 1 2 4 UNSET 0) /\
  snd ((setRow false 5 1 ;; turns false 4) (RowChaser_new bwt_index))
    = Ok (tt, awaiting bwt_index 1 2 4 UNSET 0) /\
  snd (toFlatRefOff true 6 bwt_index 1 5) = Ok 5 /\
  snd (toFlatRefOff false 6 bwt_index 1 5) = Ok 5.
Proof.
  split; [exact bwt_index_reachability |].
  repeat split; try reflexivity. discriminate.
Qed.

(** C4. On every index with [offRate = 2], sentinel row 0, rows 7 and 5
    unmarked, backward steps 7 -> 5 -> 2, row 2 marked and
    [offs[2 >> 2] = 10], [toFlatRefOff] of row 7 returns flat offset 12, for
    every positive query length and every fuel of at least 3 tests of the
    loop; its index accesses are prefetch 7, step 7, prefetch 5, step 5. *)
Theorem example_chase_yields_12 asserts e qlen fuel :
  offRate e = 2 -> zOff e = 0 ->
  marked e 7 = false -> marked e 5 = false -> marked e 2 = true ->
  LF e 7 = 5 -> LF e 5 = 2 ->
  sample e 2 = Some 10 ->
  0 < qlen -> (3 <= fuel)%nat ->
  toFlatRefOff asserts fuel e qlen 7 =
  ([EvPrefetch (initFromRow 7); EvMapLF (initFromRow 7);
    EvPrefetch (initFromRow 5); EvMapLF (initFromRow 5)], Ok 12).
Proof.
  intros Hrate Hz H7 H5 H2 L7 L5 Hs Hq Hf.
  assert (Hrows : LFn e 1 7 = 5 /\ LFn e 2 7 = 2).
  { cbn [LFn]. rewrite L7, L5. split; reflexivity. }
  destruct Hrows as [R1 R2].
  destruct (chase_run asserts (RowChaser_new e) 7 qlen 1 10)
    as (rc' & Hrun & Hd & _ & Ho); cbn [ebwt_ RowChaser_new]; trivial.
  - discriminate.
  - intros i Hi. unfold anchor. rewrite Hz.
    destruct i as [| [| i]]; [| | lia].
    + cbn [LFn]. rewrite H7. reflexivity.
    + rewrite R1, H5. reflexivity.
  - rewrite R2. unfold anchor. rewrite H2. apply orb_true_r.
  - rewrite R2. unfold anchor_off. rewrite Hz. exact Hs.
  - intros _ i Hi. destruct i as [| [| i]]; [| | lia].
    + rewrite R1. cbn [LFn]. discriminate.
    + rewrite R1, R2. discriminate.
  - unfold toFlatRefOff.
    rewrite (wrapper_of_turns _ _ _ 2 fuel _ _ _ Hrun Hd) by lia.
    cbn [outcome chase_events app ebwt_ RowChaser_new LFn].
    rewrite L7, Ho. reflexivity.
Qed.

Lemma example_chase_yields_12_witness :
  toFlatRefOff true 3 example_index 4 7 =
  ([EvPrefetch (initFromRow 7); EvMapLF (initFromRow 7);
    EvPrefetch (initFromRow 5); EvMapLF (initFromRow 5)], Ok 12).
Proof.
  apply (example_chase_yields_12 true example_index 4 3);
    try reflexivity; lia.
Defined.

(** C5. Throughout every chase, that is [setRow] followed by any number of
    turns in which [advance()] is called while [done()] is false, the index
    accesses obey the prefetch discipline: a prefetch is issued only when
    none is outstanding, and every [mapLF] lookup goes through the locus of
    the one outstanding prefetch, which it consumes.  After every turn the
    outstanding prefetch is the one of the locus of the current row while
    the chase is unresolved, and there is none once it is resolved.  The
    same holds for the accesses of the loop of the wrappers, whatever its
    fuel, and with or without assertions, also when a call fails. *)
Theorem chase_prefetch_discipline asserts rc0 row qlen n :
  (exists o,
     protocol None (fst ((setRow asserts row qlen ;; turns asserts n) rc0))
       = Some o /\
     match snd ((setRow asserts row qlen ;; turns asserts n) rc0) with
     | Ok (_, rc') => in_step o rc'
     | _ => True
     end) /\
  (exists o,
     protocol None (fst ((setRow asserts row qlen ;; drive asserts n) rc0))
       = Some o).
Proof.
  destruct ((setRow asserts row qlen ;; turns asserts n) rc0) as [evs r] eqn:H.
  destruct (chase_protocol _ _ _ _ _ _ _ H) as (o & Ho & Hr).
  split.
  - exists o. split; assumption.
  - exists o.
    rewrite (bind_events_cong _ _ (fun _ => turns asserts n)).
    + rewrite H. exact Ho.
    + intros _ rc'. apply drive_events.
Qed.

(** The accesses of the example chase after one turn: prefetch 7, step 7,
    prefetch 5; the prefetch of the locus of row 5 is outstanding. *)
Example example_chase_accesses_accepted :
  protocol None
    (fst ((setRow true 7 4 ;; turns true 1) (RowChaser_new example_index)))
  = Some (Some (initFromRow 5)).
Proof. reflexivity. Qed.

(** C6. For every index, row and query length, [toFlatRefOff] returns a
    result (with some fuel for its loop) exactly when constructing a fresh
    resolver, calling [setRow], calling [advance()] until [done()], and
    reading [flatOff()] yields that result, with the same index accesses;
    and [toRefOff] likewise with [off()] read at the end. *)
Theorem wrappers_refine_spec asserts e qlen row :
  (forall evs v,
     (exists fuel, toFlatRefOff asserts fuel e qlen row = (evs, Ok v)) <->
     spec_resolveRowToFlatOffset asserts e qlen row evs v) /\
  (forall evs p,
     (exists fuel, toRefOff asserts fuel e qlen row = (evs, Ok p)) <->
     spec_resolveRowToTextPosition asserts e qlen row evs p).
Proof.
  unfold toFlatRefOff, toRefOff, spec_resolveRowToFlatOffset,
    spec_resolveRowToTextPosition.
  split; intros evs v; split.
  - intros [fuel H]. apply outcome_ok in H. destruct H as [rc H].
    apply bind_inv in H. destruct H as (ev0 & [] & rc1 & ev' & Hs & H & ->).
    apply bind_inv in H. destruct H as (ev1 & [] & rc2 & ev2 & Hd & Hf & ->).
    unfold flatOff, gets in Hf. injection Hf as <- <- <-.
    exists ev0, rc1, ev1, rc2. repeat split; auto.
    + eapply drive_sound; eauto.
    + rewrite app_nil_r. reflexivity.
  - intros (ev0 & rc1 & ev1 & rc2 & Hs & Hr & Hf & ->).
    apply drive_complete in Hr. destruct Hr as [fuel Hd]. exists fuel.
    apply outcome_ok. exists rc2.
    rewrite (bind_ok _ _ _ _ _ _ Hs). rewrite (bind_ok _ _ _ _ _ _ Hd).
    rewrite Hf. cbn [fst snd]. rewrite app_nil_r. reflexivity.
  - intros [fuel H]. apply outcome_ok in H. destruct H as [rc H].
    apply bind_inv in H. destruct H as (ev0 & [] & rc1 & ev' & Hs & H & ->).
    apply bind_inv in H. destruct H as (ev1 & [] & rc2 & ev2 & Hd & Hf & ->).
    exists ev0, rc1, ev1, rc2, ev2, rc. repeat split; auto.
    eapply drive_sound; eauto.
  - intros (ev0 & rc1 & ev1 & rc2 & ev2 & rc3 & Hs & Hr & Hf & ->).
    apply drive_complete in Hr. destruct Hr as [fuel Hd]. exists fuel.
    apply outcome_ok. exists rc3.
    rewrite (bind_ok _ _ _ _ _ _ Hs). rewrite (bind_ok _ _ _ _ _ _ Hd).
    rewrite Hf. reflexivity.
Qed.

Lemma wrappers_refine_spec_witness :
  spec_resolveRowToFlatOffset true example_index 4 7
    [EvPrefetch (initFromRow 7); EvMapLF (initFromRow 7);
     EvPrefetch (initFromRow 5); EvMapLF (initFromRow 5)] 12 /\
  spec_resolveRowToTextPosition true example_index 4 7
    [EvPrefetch (initFromRow 7); EvMapLF (initFromRow 7);
     EvPrefetch (initFromRow 5); EvMapLF (initFromRow 5)] (0, 12).
Proof.
  destruct (wrappers_refine_spec true example_index 4 7) as [Hf Hp].
  split.
  - apply Hf. exists 3%nat. reflexivity.
  - apply Hp. exists 3%nat. reflexivity.
Defined.

(** C7 (as amended).  In a build with assertions compiled in, calling
    [advance()] on an object that is resolved, or whose [prepped_] flag is
    not set, stops in an assertion failure before any index access and
    before any change of the object. *)
Theorem advance_rejects_out_of_sequence rc :
  done_ rc = true \/ prepped_ rc = false ->
  advance true rc = ([], AssertFail).
Proof.
  destruct rc as [p e q r j l d o t]. cbn [done_ prepped_].
  intros [-> | ->]; run_m; reflexivity.
Qed.

Lemma advance_rejects_out_of_sequence_witness :
  advance true (RowChaser_new example_index) = ([], AssertFail) /\
  advance true (mkRowChaser false example_index 1 2 0 SideLocus0 true 10 0)
    = ([], AssertFail).
Proof.
  split.
  - apply advance_rejects_out_of_sequence. right. reflexivity.
  - apply advance_rejects_out_of_sequence. left. reflexivity.
Defined.

(** C7, the claim as stated, fails in a build without assertions.  After
    [setRow(2, 1)] on the example index the chase is resolved with offset
    10; [advance()] then returns normally, has looked up [mapLF] through the
    locus it was constructed with, and leaves offset 1.  On a freshly
    constructed object, for which no prefetch was ever issued, [advance()]
    returns normally as well. *)
Lemma advance_unchecked_without_assertions :
  setRow false 2 1 (RowChaser_new example_index)
    = ([], Ok (tt, mkRowChaser false example_index 1 2 0 SideLocus0 true 10 0)) /\
  advance false (mkRowChaser false example_index 1 2 0 SideLocus0 true 10 0)
    = ([EvMapLF SideLocus0],
       Ok (tt, mkRowChaser true example_index 1 0 1 SideLocus0 true 1 0)) /\
  advance false (RowChaser_new example_index)
    = ([EvMapLF SideLocus0],
       Ok (tt, mkRowChaser true example_index 0 0 1 SideLocus0 true 1 0)).
Proof. repeat split. Qed.

(** C8 (as amended).  If during a step the backward-step mapping returns
    the row it was given, a build with assertions compiled in stops in an
    assertion failure right after the lookup.  The step count is never
    checked: whatever [jumps_] is, a step to a different row that is no
    anchor returns normally and leaves the chase unresolved. *)
Theorem advance_same_row_or_long_chase rc :
  (done_ rc = false -> prepped_ rc = true ->
   mapLF (ebwt_ rc) (sideloc_ rc) = row_ rc ->
   advance true rc = ([EvMapLF (sideloc_ rc)], AssertFail)) /\
  (forall asserts e q row j o t,
     LF e row <> row -> anchor e (LF e row) = false ->
     advance asserts (awaiting e q row j o t) =
     ([EvMapLF (initFromRow row); EvPrefetch (initFromRow (LF e row))],
      Ok (tt, awaiting e q (LF e row) (u32 (j + 1)) o t))).
Proof.
  split.
  - destruct rc as [p e q r j l d o t].
    cbn [done_ prepped_ ebwt_ sideloc_ row_]. intros -> -> Hsame.
    apply Z.eqb_eq in Hsame. run_m. reflexivity.
  - intros. apply advance_awaiting_unresolved; auto.
Qed.

Lemma advance_same_row_or_long_chase_witness :
  advance true (with_sideloc (initFromRow 7) (awaiting cyclic_index 1 5 0 UNSET 0))
    = ([EvMapLF (initFromRow 7)], AssertFail) /\
  advance true (awaiting cyclic_index 1 7 1000000 UNSET 0)
    = ([EvMapLF (initFromRow 7); EvPrefetch (initFromRow 5)],
       Ok (tt, awaiting cyclic_index 1 5 1000001 UNSET 0)).
Proof.
  split.
  - apply (advance_same_row_or_long_chase
             (with_sideloc (initFromRow 7) (awaiting cyclic_index 1 5 0 UNSET 0)));
      reflexivity.
  - apply (proj2 (advance_same_row_or_long_chase (RowChaser_new cyclic_index))
             true cyclic_index 1 7 1000000 UNSET 0).
    + vm_compute. discriminate.
    + reflexivity.
Defined.

(** C8, the claim as stated, fails.  On [cyclic_index] (sampling interval
    4) the backward steps from row 7 cycle through the unmarked rows 5 and
    7.  After 1000 calls of [advance()] the chase is still unresolved with
    [jumps_ = 1000] and every call has returned normally, with and without
    assertions: no step count is ever reported as an error.  Without
    assertions, a lookup that returns the row stepped from is not reported
    either: the call returns normally. *)
Lemma long_chase_is_not_reported :
  2 ^ offRate cyclic_index = 4 /\
  snd ((setRow true 7 1 ;; turns true 1000) (RowChaser_new cyclic_index))
    = Ok (tt, awaiting cyclic_index 1 7 1000 UNSET 0) /\
  snd ((setRow false 7 1 ;; turns false 1000) (RowChaser_new cyclic_index))
    = Ok (tt, awaiting cyclic_index 1 7 1000 UNSET 0) /\
  advance false (with_sideloc (initFromRow 7) (awaiting cyclic_index 1 5 0 UNSET 0))
    = ([EvMapLF (initFromRow 7); EvPrefetch (initFromRow 5)],
       Ok (tt, awaiting cyclic_index 1 5 1 UNSET 0)).
Proof.
  split; [reflexivity |].
  split; [vm_compute; reflexivity |].
  split; [vm_compute; reflexivity | reflexivity].
Qed.

(** C9. When the index's [joinedToTextOff] answers the resolved flat offset
    with the "no sequence" value [0xffffffff] as sequence id (a hit that
    overlaps a reference boundary), [off()] returns normally and hands that
    value to the caller unchanged, with the text offset, and stores the text
    length in [tlen_].  With assertions compiled in, [off()] requires the
    stored offset not to be the reserved value. *)
Theorem off_passes_no_sequence asserts rc textoff tl :
  (asserts = true -> off_ rc <> UNSET) ->
  joinedToTextOff (ebwt_ rc) (qlen_ rc) (off_ rc) = (UNSET, textoff, tl) ->
  off asserts rc = ([], Ok ((UNSET, textoff), with_tlen tl rc)).
Proof.
  destruct rc as [p e q r j l d o t]. cbn [ebwt_ qlen_ off_].
  intros Ho Hj.
  assert (H : asserts = true -> (UNSET =? o) = false).
  { intros Ha. apply Z.eqb_neq. intros E. apply (Ho Ha). congruence. }
  destruct asserts; [specialize (H eq_refl) | clear H];
    run_m; rewrite Hj; reflexivity.
Qed.

Lemma off_passes_no_sequence_witness :
  setRow true 2 15 (RowChaser_new example_index)
    = ([], Ok (tt, mkRowChaser false example_index 15 2 0 SideLocus0 true 10 0)) /\
  off true (mkRowChaser false example_index 15 2 0 SideLocus0 true 10 0)
    = ([], Ok ((UNSET, 10),
               mkRowChaser false example_index 15 2 0 SideLocus0 true 10 20)).
Proof.
  split; [reflexivity |].
  apply (off_passes_no_sequence true
           (mkRowChaser false example_index 15 2 0 SideLocus0 true 10 0) 10 20).
  - intros _. cbn [off_]. discriminate.
  - reflexivity.
Defined.

(** C10. In every object a caller can hold between two calls of public
    methods (constructed, then any returning calls of [setRow], [advance],
    [prep] and [off]), if [done()] is false then the stored offset is the
    reserved value [0xffffffff], which is what [flatOff()] returns: never a
    partial or stale offset. *)
Theorem unresolved_offset_is_unset asserts rc :
  reachable asserts rc -> done_ rc = false ->
  flatOff rc = ([], Ok (UNSET, rc)).
Proof.
  intros Hr Hd. unfold flatOff, gets.
  assert (Hi : unset_while_unresolved rc).
  { clear Hd. induction Hr.
    - intros _. reflexivity.
    - eapply setRow_unset; eauto.
    - eapply advance_unset; eauto.
    - eapply prep_unset; eauto.
    - eapply off_unset; eauto. }
  rewrite (Hi Hd). reflexivity.
Qed.

Lemma unresolved_offset_is_unset_witness :
  flatOff (awaiting example_index 4 5 1 UNSET 0)
    = ([], Ok (UNSET, awaiting example_index 4 5 1 UNSET 0)).
Proof.
  apply (unresolved_offset_is_unset true).
  - apply (reach_advance true (awaiting example_index 4 7 0 UNSET 0)
             [EvMapLF (initFromRow 7); EvPrefetch (initFromRow 5)]).
    + apply (reach_setRow true (RowChaser_new example_index) 7 4
               [EvPrefetch (initFromRow 7)]).
      * apply reach_new.
      * reflexivity.
    + reflexivity.
  - reflexivity.
Defined.

(* ------------------------------------------------------------------ *)
(** ** Further properties: what a step leaves behind *)

(** What a returning call of [advance()] on an unresolved object leaves. *)
Lemma advance_effect asserts rc evs rc' :
  done_ rc = false ->
  advance asserts rc = (evs, Ok (tt, rc')) ->
  let e := ebwt_ rc in
  ebwt_ rc' = e /\ qlen_ rc' = qlen_ rc /\
  row_ rc' = mapLF e (sideloc_ rc) /\
  jumps_ rc' = u32 (jumps_ rc + 1) /\
  (done_ rc' = true ->
   evs = [EvMapLF (sideloc_ rc)] /\ anchor e (row_ rc') = true /\
   exists a, anchor_off e (row_ rc') = Some a /\
             off_ rc' = u32 (a + jumps_ rc')) /\
  (done_ rc' = false ->
   evs = [EvMapLF (sideloc_ rc); EvPrefetch (initFromRow (row_ rc'))] /\
   anchor e (row_ rc') = false /\
   sideloc_ rc' = initFromRow (row_ rc') /\ prepped_ rc' = true).
Proof.
  intros Hd. destruct rc as [p e q row j l d o t].
  cbn [done_ ebwt_ qlen_ sideloc_ jumps_] in *. subst d.
  destruct (mapLF e l =? zOff e) eqn:Hz;
    [| destruct (marked e (mapLF e l)) eqn:Hm;
       [destruct (sample e (mapLF e l)) as [v |] eqn:Hv |]];
    destruct asserts; run_m; intros H; try discriminate;
    injection H as <- <-; red_m; unfold anchor, anchor_off; use_tests;
    cbn [orb];
    repeat split; try reflexivity; try discriminate.
  all: try (eexists; split; [reflexivity |]).
  all: try (cbn [Z.add]; symmetry; apply u32_idem).
  all: try reflexivity.
Qed.

(** What a returning call of [setRow()] leaves. *)
Lemma setRow_effect asserts row qlen rc evs rc' :
  setRow asserts row qlen rc = (evs, Ok (tt, rc')) ->
  let e := ebwt_ rc in
  ebwt_ rc' = e /\ qlen_ rc' = qlen /\ row_ rc' = row /\
  (done_ rc' = true ->
   evs = [] /\ anchor e row = true /\
   exists a, anchor_off e row = Some a /\ off_ rc' = a) /\
  (done_ rc' = false ->
   evs = [EvPrefetch (initFromRow row)] /\ anchor e row = false /\
   jumps_ rc' = 0 /\ sideloc_ rc' = initFromRow row /\ prepped_ rc' = true).
Proof.
  destruct rc as [p e q r j l d o t]. cbn [ebwt_].
  destruct (row =? zOff e) eqn:Hz;
    [| destruct (marked e row) eqn:Hm;
       [destruct (sample e row) as [v |] eqn:Hv |]];
    destruct asserts; run_m; intros H; try discriminate;
    injection H as <- <-; red_m; unfold anchor, anchor_off; use_tests;
    cbn [orb];
    repeat split; try reflexivity; try discriminate.
  all: eexists; split; reflexivity.
Qed.


(** A driver that starts in the middle of a chase and finds it resolved
    has stopped at the first anchor of the chain. *)
Lemma turns_sound asserts n : forall rc evs rc',
  done_ rc = false ->
  sideloc_ rc = initFromRow (row_ rc) ->
  anchor (ebwt_ rc) (row_ rc) = false ->
  turns asserts n rc = (evs, Ok (tt, rc')) ->
  done_ rc' = true ->
  let e := ebwt_ rc in
  let k := lookups evs in
  (1 <= k <= n)%nat /\
  row_ rc' = LFn e k (row_ rc) /\
  (forall i, (i < k)%nat -> anchor e (LFn e i (row_ rc)) = false) /\
  anchor e (row_ rc') = true /\
  jumps_ rc' = jumps_after (jumps_ rc) k /\
  exists a, anchor_off e (row_ rc') = Some a /\
            off_ rc' = u32 (a + jumps_ rc').
Proof.
  induction n as [| n IH]; intros rc evs rc' Hd Hl Ha Ht Hd'.
  - cbn in Ht. injection Ht as <- <-. congruence.
  - rewrite turns_step in Ht by assumption.
    destruct (advance asserts rc) as [ev1 [[[] rc1] | | |]] eqn:Hadv;
      try discriminate.
    destruct (turns asserts n rc1) as [ev2 r2] eqn:Ht1.
    injection Ht as <- ->.
    destruct (advance_effect _ _ _ _ Hd Hadv)
      as (He & _ & Hr & Hj & Hres & Hunres).
    rewrite Hl in Hr. fold (LF (ebwt_ rc) (row_ rc)) in Hr.
    destruct (done_ rc1) eqn:Hd1.
    + rewrite turns_done in Ht1 by assumption. injection Ht1 as <- <-.
      destruct (Hres eq_refl) as (-> & Han & a & Hoff & Ho).
      cbn [app lookups]. repeat split; try lia.
      * cbn [LFn]. exact Hr.
      * intros i Hi. replace i with 0%nat by lia. exact Ha.
      * exact Han.
      * exact Hj.
      * exists a. split; assumption.
    + destruct (Hunres eq_refl) as (-> & Han & Hl1 & _).
      rewrite <- He in Han.
      destruct (IH _ _ _ Hd1 Hl1 Han Ht1 Hd')
        as (Hk & Hrow & Hfirst & Hanc & Hjumps & a & Hoff & Ho).
      rewrite He, Hr in *.
      cbn [app lookups]. repeat split; try lia.
      * cbn [LFn]. exact Hrow.
      * intros [| i] Hi; [exact Ha |]. cbn [LFn]. apply Hfirst. lia.
      * exact Hanc.
      * rewrite Hjumps, Hj. apply jumps_after_succ.
      * exists a. split; assumption.
Qed.

(** X1. Whenever a chase ([setRow] followed by turns of [advance()]) is
    resolved, it has stopped at the first anchor of the chain of backward
    steps from the starting row: with [k] the number of [mapLF] lookups made,
    the final row is the [k]-th backward step of the starting row, it is the
    sentinel row or a marked row, no earlier row of the chain is one, and the
    offset is the anchor's known offset, plus [k] as a [uint32_t] when a step
    was taken. *)
Theorem resolved_chase_is_sound asserts rc0 row qlen n evs rc' :
  (setRow asserts row qlen ;; turns asserts n) rc0 = (evs, Ok (tt, rc')) ->
  done_ rc' = true ->
  let e := ebwt_ rc0 in
  let k := lookups evs in
  (k <= n)%nat /\
  row_ rc' = LFn e k row /\
  (forall i, (i < k)%nat -> anchor e (LFn e i row) = false) /\
  anchor e (LFn e k row) = true /\
  exists a, anchor_off e (LFn e k row) = Some a /\
            off_ rc' = match k with
                       | O => a
                       | S _ => u32 (a + Z.of_nat k)
                       end.
Proof.
  intros H Hd'. apply bind_inv in H.
  destruct H as (ev0 & [] & rc1 & ev1 & Hs & Ht & ->).
  destruct (setRow_effect _ _ _ _ _ _ Hs) as (He & _ & Hr & Hres & Hunres).
  destruct (done_ rc1) eqn:Hd1.
  - rewrite turns_done in Ht by assumption. injection Ht as <- <-.
    destruct (Hres eq_refl) as (-> & Han & a & Hoff & Ho).
    cbn [app lookups LFn]. repeat split; try lia; trivial.
    exists a. split; assumption.
  - destruct (Hunres eq_refl) as (-> & Han & Hj & Hl & _).
    rewrite <- Hr in Hl. rewrite <- He, <- Hr in Han.
    destruct (turns_sound _ _ _ _ _ Hd1 Hl Han Ht Hd')
      as (Hk & Hrow & Hfirst & Hanc & Hjumps & a & Hoff & Ho).
    rewrite He, Hr in *. cbn [app lookups].
    rewrite <- Hrow.
    repeat split; try lia; trivial.
    exists a. split; [exact Hoff |].
    destruct (lookups ev1) as [| k'] eqn:Hk'; [lia |].
      rewrite Ho, Hjumps, Hj, jumps_after_0. apply u32_add_r.
Qed.

Lemma resolved_chase_is_sound_witness :
  (setRow true 5 1 ;; turns true 7) (RowChaser_new bwt_index) =
    ([EvPrefetch (initFromRow 5); EvMapLF (initFromRow 5);
      EvPrefetch (initFromRow 6); EvMapLF (initFromRow 6);
      EvPrefetch (initFromRow 7); EvMapLF (initFromRow 7);
      EvPrefetch (initFromRow 3); EvMapLF (initFromRow 3);
      EvPrefetch (initFromRow 2); EvMapLF (initFromRow 2)],
     Ok (tt, mkRowChaser true bwt_index 1 1 5 (mkSideLocus 2 false) true 5 0)) /\
  anchor bwt_index (LFn bwt_index 5 5) = true /\
  (forall i, (i < 5)%nat -> anchor bwt_index (LFn bwt_index i 5) = false).
Proof.
  assert (H : (setRow true 5 1 ;; turns true 7) (RowChaser_new bwt_index) =
    ([EvPrefetch (initFromRow 5); EvMapLF (initFromRow 5);
      EvPrefetch (initFromRow 6); EvMapLF (initFromRow 6);
      EvPrefetch (initFromRow 7); EvMapLF (initFromRow 7);
      EvPrefetch (initFromRow 3); EvMapLF (initFromRow 3);
      EvPrefetch (initFromRow 2); EvMapLF (initFromRow 2)],
     Ok (tt, mkRowChaser true bwt_index 1 1 5 (mkSideLocus 2 false) true 5 0)))
    by reflexivity.
  split; [exact H |].
  destruct (resolved_chase_is_sound _ _ _ _ _ _ _ H eq_refl)
    as (_ & _ & Hfirst & Hanc & _).
  split; [exact Hanc | exact Hfirst].
Defined.

(* ------------------------------------------------------------------ *)
(** ** Further properties: runs that agree *)

Lemma same_run_bind {A B} (R R' : RowChaser -> RowChaser -> Prop)
    (m1 m2 : M A) (f1 f2 : A -> M B) rc1 rc2 :
  same_run R (m1 rc1) (m2 rc2) ->
  (forall a s1 s2, R s1 s2 -> same_run R' (f1 a s1) (f2 a s2)) ->
  same_run R' (bind m1 f1 rc1) (bind m2 f2 rc2).
Proof.
  unfold same_run, bind. intros [Hev Hres] Hf.
  destruct (m1 rc1) as [ev1 [[a1 s1] | | |]], (m2 rc2) as [ev2 [[a2 s2] | | |]];
    cbn [fst snd] in Hev, Hres; try contradiction; subst ev2;
    try (split; [reflexivity | exact I]).
  destruct Hres as [-> HR]. specialize (Hf a2 s1 s2 HR).
  destruct (f1 a2 s1) as [ev1' r1], (f2 a2 s2) as [ev2' r2].
  cbn [fst snd] in *. destruct Hf as [-> Hf]. split; [reflexivity | exact Hf].
Qed.

Lemma same_run_outcome {A} R (r1 r2 : list Event * Result (A * RowChaser)) :
  same_run R r1 r2 -> outcome r1 = outcome r2.
Proof.
  unfold same_run, outcome.
  destruct r1 as [ev1 [[a1 s1] | | |]], r2 as [ev2 [[a2 s2] | | |]];
    cbn [fst snd]; intros [-> H]; try contradiction; try reflexivity.
  destruct H as [-> _]. reflexivity.
Qed.

(** [setRow] starts the same chase whatever the object held before. *)
Lemma setRow_same_chase asserts strict row q1 q2 rc1 rc2 :
  ebwt_ rc1 = ebwt_ rc2 ->
  (asserts = true -> (0 <? q1) = (0 <? q2)) ->
  (strict = true -> q1 = q2) ->
  same_run (same_chase strict)
    (setRow asserts row q1 rc1) (setRow asserts row q2 rc2).
Proof.
  destruct rc1 as [p1 e q r1 j1 l1 d1 o1 t1].
  destruct rc2 as [p2 e2 q' r2 j2 l2 d2 o2 t2].
  cbn [ebwt_]. intros <- Hq Hs. unfold same_run, same_chase.
  destruct (row =? zOff e) eqn:Hz;
    [| destruct (marked e row) eqn:Hm;
       [destruct (sample e row) as [v |] eqn:Hv |]];
    (destruct asserts;
     [specialize (Hq eq_refl); destruct (0 <? q2) eqn:Hq2 | clear Hq]);
    run_m; cbn [fst snd]; red_m; repeat split; trivial; try discriminate.
Qed.

(** A step from two objects at the same point of the same chase. *)
Lemma advance_same_chase asserts strict rc1 rc2 :
  same_chase strict rc1 rc2 -> done_ rc1 = false ->
  same_run (same_chase strict) (advance asserts rc1) (advance asserts rc2).
Proof.
  destruct rc1 as [p1 e q r1 j1 l1 d1 o1 t1].
  destruct rc2 as [p2 e2 q' r2 j2 l2 d2 o2 t2].
  unfold same_chase. cbn [ebwt_ row_ done_ off_ jumps_ sideloc_ prepped_ qlen_].
  intros (<- & <- & <- & <- & H & Hs) Hd. subst d1.
  destruct (H eq_refl) as (<- & <- & <-). clear H.
  unfold same_run.
  destruct asserts; run_m; cbn [fst snd]; red_m; repeat split; trivial;
    try discriminate.
Qed.

Lemma drive_same_chase asserts strict fuel : forall rc1 rc2,
  same_chase strict rc1 rc2 ->
  same_run (same_chase strict) (drive asserts fuel rc1) (drive asserts fuel rc2).
Proof.
  induction fuel as [| fuel IH]; intros rc1 rc2 HR.
  - cbn. split; reflexivity.
  - assert (Hd12 : done_ rc1 = done_ rc2) by apply HR.
    destruct (done_ rc1) eqn:Hd.
    + rewrite !drive_done by congruence. split; [reflexivity |].
      cbn [snd]. split; trivial.
    + rewrite !drive_step by congruence.
      pose proof (advance_same_chase asserts strict rc1 rc2 HR Hd) as Ha.
      unfold same_run in Ha.
      destruct (advance asserts rc1) as [ev1 [[[] s1] | | |]],
               (advance asserts rc2) as [ev2 [[[] s2] | | |]];
        cbn [fst snd] in Ha; destruct Ha as [-> Ha]; try contradiction;
        try (split; [reflexivity | exact I]).
      destruct Ha as [_ HR']. specialize (IH s1 s2 HR').
      unfold same_run in IH.
      destruct (drive asserts fuel s1) as [e1 r1],
               (drive asserts fuel s2) as [e2 r2].
      cbn [fst snd] in *. destruct IH as [-> IH].
      split; [reflexivity | exact IH].
Qed.

(** Reading the results of two objects at the same point. *)
Lemma flatOff_same_chase strict rc1 rc2 :
  same_chase strict rc1 rc2 ->
  same_run (same_chase strict) (flatOff rc1) (flatOff rc2).
Proof.
  intros HR. unfold flatOff, gets. split; [reflexivity |]. cbn [snd].
  split; [apply HR | exact HR].
Qed.

Lemma off_same_chase asserts rc1 rc2 :
  same_chase true rc1 rc2 ->
  same_run (fun _ _ => True) (off asserts rc1) (off asserts rc2).
Proof.
  destruct rc1 as [p1 e q r1 j1 l1 d1 o1 t1].
  destruct rc2 as [p2 e2 q' r2 j2 l2 d2 o2 t2].
  unfold same_chase. cbn [ebwt_ row_ done_ off_ jumps_ sideloc_ prepped_ qlen_].
  intros (<- & <- & <- & <- & H & Hs). specialize (Hs eq_refl). subst q'.
  unfold same_run.
  destruct (joinedToTextOff e q o1) as [[tidx textoff] tl] eqn:Hj.
  destruct asserts; run_m; rewrite ?Hj; cbn [fst snd]; red_m;
    repeat split; trivial.
Qed.

(** X2. A resolver can be reused: started with [setRow] on an object in any
    state and driven by the loop of the wrappers, a chase makes the index
    accesses and gives the flat offset, and the text position, that
    [toFlatRefOff] and [toRefOff] give on a fresh object of the same index;
    it also fails as they fail. *)
Theorem resolver_reuse asserts fuel rc0 row qlen :
  outcome ((setRow asserts row qlen ;; drive asserts fuel ;; flatOff) rc0)
    = toFlatRefOff asserts fuel (ebwt_ rc0) qlen row /\
  outcome ((setRow asserts row qlen ;; drive asserts fuel ;; off asserts) rc0)
    = toRefOff asserts fuel (ebwt_ rc0) qlen row.
Proof.
  unfold toFlatRefOff, toRefOff. split.
  - apply (same_run_outcome (same_chase true)).
    apply (same_run_bind (same_chase true)).
    + apply setRow_same_chase; trivial.
    + intros _ s1 s2 HR. apply (same_run_bind (same_chase true)).
      * apply drive_same_chase. exact HR.
      * intros _ s1' s2' HR'. apply flatOff_same_chase. exact HR'.
  - apply (same_run_outcome (fun _ _ => True)).
    apply (same_run_bind (same_chase true)).
    + apply setRow_same_chase; trivial.
    + intros _ s1 s2 HR. apply (same_run_bind (same_chase true)).
      * apply drive_same_chase. exact HR.
      * intros _ s1' s2' HR'. apply off_same_chase. exact HR'.
Qed.

(** X3. The index accesses and the flat offset of [toFlatRefOff] do not
    depend on the query length (among the lengths [setRow] accepts: the
    positive ones when assertions are compiled in, all of them otherwise). *)
Theorem flat_offset_ignores_query_length asserts fuel e row q1 q2 :
  (asserts = true -> 0 < q1 /\ 0 < q2) ->
  toFlatRefOff asserts fuel e q1 row = toFlatRefOff asserts fuel e q2 row.
Proof.
  intros Hq. unfold toFlatRefOff.
  apply (same_run_outcome (same_chase false)).
  apply (same_run_bind (same_chase false)).
  - apply setRow_same_chase; trivial; try discriminate.
    intros Ha. destruct (Hq Ha) as [H1 H2].
    apply Z.ltb_lt in H1, H2. congruence.
  - intros _ s1 s2 HR. apply (same_run_bind (same_chase false)).
    + apply drive_same_chase. exact HR.
    + intros _ s1' s2' HR'. apply flatOff_same_chase. exact HR'.
Qed.

Lemma flat_offset_ignores_query_length_witness :
  toFlatRefOff true 3 example_index 4 7 = toFlatRefOff true 3 example_index 9 7.
Proof.
  apply flat_offset_ignores_query_length. intros _. lia.
Defined.

(* ------------------------------------------------------------------ *)
(** ** Further properties: translating the offset *)

(** [off()] on an object whose offset passes its assertion. *)
Lemma off_run asserts rc :
  (asserts = true -> off_ rc <> UNSET) ->
  off asserts rc =
  ([], Ok (text_position (ebwt_ rc) (qlen_ rc) (off_ rc),
           with_tlen (snd (joinedToTextOff (ebwt_ rc) (qlen_ rc) (off_ rc)))
                     rc)).
Proof.
  destruct rc as [p e q r j l d o t]. cbn [ebwt_ qlen_ off_].
  intros Ho. unfold text_position.
  assert (H : asserts = true -> (UNSET =? o) = false).
  { intros Ha. apply Z.eqb_neq. intros E. apply (Ho Ha). congruence. }
  destruct (joinedToTextOff e q o) as [[tidx textoff] tl] eqn:Hj.
  destruct asserts; [specialize (H eq_refl) | clear H];
    run_m; rewrite Hj; reflexivity.
Qed.

(** [off()] on an object that holds the reserved offset, with assertions. *)
Lemma off_unset_fails rc :
  off_ rc = UNSET -> off true rc = ([], AssertFail).
Proof.
  destruct rc as [p e q r j l d o t]. cbn [off_]. intros ->.
  assert (E : (UNSET =? UNSET) = true) by reflexivity.
  run_m. reflexivity.
Qed.

(** The loop keeps the index and the query length of the object. *)
Lemma drive_keeps asserts fuel : forall rc evs rc',
  drive asserts fuel rc = (evs, Ok (tt, rc')) ->
  ebwt_ rc' = ebwt_ rc /\ qlen_ rc' = qlen_ rc.
Proof.
  induction fuel as [| fuel IH]; intros rc evs rc' H; [discriminate |].
  destruct (done_ rc) eqn:Hd.
  - rewrite drive_done in H by assumption. injection H as <- <-.
    split; reflexivity.
  - rewrite drive_step in H by assumption.
    destruct (advance asserts rc) as [ev1 [[[] rc1] | | |]] eqn:Ha;
      try discriminate.
    destruct (drive asserts fuel rc1) as [ev2 r2] eqn:Hd1.
    injection H as <- ->.
    destruct (advance_effect _ _ _ _ Hd Ha) as (He & Hq & _).
    destruct (IH _ _ _ Hd1) as [He' Hq']. split; congruence.
Qed.

(** Every object a caller can hold keeps the reserved offset while it is
    unresolved. *)
Lemma reachable_unset asserts rc :
  reachable asserts rc -> unset_while_unresolved rc.
Proof.
  induction 1.
  - intros _. reflexivity.
  - eapply setRow_unset; eauto.
  - eapply advance_unset; eauto.
  - eapply prep_unset; eauto.
  - eapply off_unset; eauto.
Qed.

(** X4. Whenever [toFlatRefOff] returns a flat offset, [toRefOff] with the
    same arguments makes the same index accesses and returns the first two
    results of [joinedToTextOff] for that offset and the query length; with
    assertions compiled in it fails an assertion instead when the offset is
    the reserved value [0xffffffff]. *)
Theorem toRefOff_translates_flat asserts fuel e qlen row evs flat :
  toFlatRefOff asserts fuel e qlen row = (evs, Ok flat) ->
  toRefOff asserts fuel e qlen row =
  (evs, if asserts && (flat =? UNSET) then AssertFail
        else Ok (text_position e qlen flat)).
Proof.
  unfold toFlatRefOff, toRefOff. intros H.
  apply outcome_ok in H. destruct H as [rc H].
  apply bind_inv in H. destruct H as (ev0 & [] & rc1 & ev' & Hs & H & ->).
  apply bind_inv in H. destruct H as (ev1 & [] & rc2 & ev2 & Hd & Hf & ->).
  unfold flatOff, gets in Hf. injection Hf as <- <- <-.
  destruct (setRow_effect _ _ _ _ _ _ Hs) as (He & Hq & _).
  destruct (drive_keeps _ _ _ _ _ Hd) as (He' & Hq').
  cbn [ebwt_ RowChaser_new] in He.
  rewrite (bind_ok _ _ _ _ _ _ Hs). rewrite (bind_ok _ _ _ _ _ _ Hd).
  destruct (asserts && (off_ rc2 =? UNSET)) eqn:Hc.
  - apply andb_prop in Hc. destruct Hc as [-> Hu]. apply Z.eqb_eq in Hu.
    rewrite (off_unset_fails _ Hu). reflexivity.
  - rewrite off_run.
    + cbn [fst snd outcome]. rewrite He', Hq', He, Hq. reflexivity.
    + intros ->. cbn [andb] in Hc. apply Z.eqb_neq. exact Hc.
Qed.

Lemma toRefOff_translates_flat_witness :
  toRefOff true 3 example_index 15 7 =
  ([EvPrefetch (initFromRow 7); EvMapLF (initFromRow 7);
    EvPrefetch (initFromRow 5); EvMapLF (initFromRow 5)], Ok (UNSET, 12)).
Proof.
  apply (toRefOff_translates_flat true 3 example_index 15 7 _ 12).
  reflexivity.
Defined.

(** X5. A returning call of [off()] makes no index access and changes
    nothing but [tlen_], which then holds the text length reported by
    [joinedToTextOff], as [tlen()] reads it; a second call returns the same
    pair and leaves the object as it is. *)
Theorem off_is_repeatable asserts rc evs p rc' :
  off asserts rc = (evs, Ok (p, rc')) ->
  evs = [] /\
  p = text_position (ebwt_ rc) (qlen_ rc) (off_ rc) /\
  rc' = with_tlen (snd (joinedToTextOff (ebwt_ rc) (qlen_ rc) (off_ rc))) rc /\
  tlen rc' = ([], Ok (snd (joinedToTextOff (ebwt_ rc) (qlen_ rc) (off_ rc)), rc')) /\
  off asserts rc' = ([], Ok (p, rc')).
Proof.
  intros H.
  assert (Ho : asserts = true -> off_ rc <> UNSET).
  { intros -> Hu. rewrite (off_unset_fails _ Hu) in H. discriminate. }
  rewrite (off_run _ _ Ho) in H. injection H as <- <- <-.
  repeat split.
  rewrite off_run by (destruct rc; exact Ho).
  destruct rc; reflexivity.
Qed.

Lemma off_is_repeatable_witness :
  off true (mkRowChaser false example_index 15 2 0 SideLocus0 true 10 20)
  = ([], Ok ((UNSET, 10),
             mkRowChaser false example_index 15 2 0 SideLocus0 true 10 20)).
Proof.
  apply (off_is_repeatable true
           (mkRowChaser false example_index 15 2 0 SideLocus0 true 10 0) []).
  reflexivity.
Defined.

(** X6. On every object a caller can hold whose chase is unresolved,
    [off()] fails an assertion when assertions are compiled in; without them
    it returns normally what [joinedToTextOff] answers for the reserved
    offset [0xffffffff]. *)
Theorem off_before_resolution asserts rc :
  reachable asserts rc -> done_ rc = false ->
  off asserts rc =
  if asserts then ([], AssertFail)
  else ([], Ok (text_position (ebwt_ rc) (qlen_ rc) UNSET,
                with_tlen (snd (joinedToTextOff (ebwt_ rc) (qlen_ rc) UNSET))
                          rc)).
Proof.
  intros Hr Hd. pose proof (reachable_unset _ _ Hr Hd) as Hu.
  destruct asserts.
  - apply off_unset_fails. exact Hu.
  - rewrite off_run by discriminate. rewrite Hu. reflexivity.
Qed.

Lemma off_before_resolution_witness :
  off true (awaiting example_index 4 7 0 UNSET 0) = ([], AssertFail).
Proof.
  apply (off_before_resolution true (awaiting example_index 4 7 0 UNSET 0)).
  - apply (reach_setRow true (RowChaser_new example_index) 7 4
             [EvPrefetch (initFromRow 7)]).
    + apply reach_new.
    + reflexivity.
  - reflexivity.
Defined.

(** X7. With assertions compiled in, [setRow] with the reserved row
    [0xffffffff] or with a query length that is not positive fails an
    assertion before any index access, whatever the object holds. *)
Theorem setRow_rejects_bad_arguments rc row qlen :
  row = UNSET \/ qlen <= 0 ->
  setRow true row qlen rc = ([], AssertFail).
Proof.
  intros H.
  destruct (UNSET =? row) eqn:Hr.
  - run_m. reflexivity.
  - assert (Hq : (0 <? qlen) = false).
    { apply Z.ltb_ge. destruct H as [-> | H]; [| exact H].
      rewrite Z.eqb_refl in Hr. discriminate. }
    run_m. reflexivity.
Qed.

Lemma setRow_rejects_bad_arguments_witness :
  setRow true 7 0 (RowChaser_new example_index) = ([], AssertFail) /\
  setRow true UNSET 4 (RowChaser_new example_index) = ([], AssertFail).
Proof.
  split.
  - apply setRow_rejects_bad_arguments. right. lia.
  - apply setRow_rejects_bad_arguments. left. reflexivity.
Defined.

(** X8. [prep()] is public, but [setRow] has already called it: a caller's
    own [prep()] right after [setRow] on a row that is no anchor fails an
    assertion when assertions are compiled in; without them it issues a
    second prefetch of the same locus while the first is outstanding, which
    the prefetch discipline forbids. *)
Theorem prep_during_chase rc0 row qlen :
  row <> UNSET -> 0 < qlen -> anchor (ebwt_ rc0) row = false ->
  (setRow true row qlen ;; prep true) rc0 =
    ([EvPrefetch (initFromRow row)], AssertFail) /\
  fst ((setRow false row qlen ;; prep false) rc0) =
    [EvPrefetch (initFromRow row); EvPrefetch (initFromRow row)] /\
  protocol None (fst ((setRow false row qlen ;; prep false) rc0)) = None.
Proof.
  intros Hr Hq Ha.
  rewrite (bind_ok _ _ _ _ _ _ (setRow_awaiting true rc0 row qlen Hr Hq Ha)).
  rewrite (bind_ok _ _ _ _ _ _ (setRow_awaiting false rc0 row qlen Hr Hq Ha)).
  unfold awaiting. repeat split.
Qed.

Lemma prep_during_chase_witness :
  (setRow true 7 4 ;; prep true) (RowChaser_new example_index) =
    ([EvPrefetch (initFromRow 7)], AssertFail).
Proof.
  apply (prep_during_chase (RowChaser_new example_index) 7 4).
  - discriminate.
  - lia.
  - reflexivity.
Defined.

(** [setRow()] on an anchor. *)
Lemma setRow_anchor asserts rc row qlen a :
  row <> UNSET -> 0 < qlen ->
  anchor (ebwt_ rc) row = true -> anchor_off (ebwt_ rc) row = Some a ->
  exists rc',
    setRow asserts row qlen rc = ([], Ok (tt, rc')) /\
    done_ rc' = true /\ off_ rc' = a.
Proof.
  intros Hr Hq Ha Hoff.
  assert (Hq' : (0 <? qlen) = true) by (apply Z.ltb_lt; lia).
  assert (Hr' : (UNSET =? row) = false) by (apply Z.eqb_neq; congruence).
  unfold anchor in Ha. unfold anchor_off in Hoff.
  destruct rc as [p e q r j l d o t]. cbn [ebwt_] in *.
  destruct (row =? zOff e) eqn:Hz.
  - injection Hoff as <-.
    destruct asserts; run_m; eexists; repeat split; reflexivity.
  - cbn [orb] in Ha.
    destruct asserts; run_m; eexists; repeat split; reflexivity.
Qed.

(** X9. For a starting row that is the sentinel row or a marked row, the
    wrappers make no index access at all: [toFlatRefOff] returns the row's
    known offset after one test of its loop, and [toRefOff] its translation
    (an assertion failure when assertions are compiled in and that offset is
    the reserved value). *)
Theorem anchor_row_resolves_without_access asserts fuel e qlen row a :
  row <> UNSET -> 0 < qlen ->
  anchor e row = true -> anchor_off e row = Some a ->
  toFlatRefOff asserts (S fuel) e qlen row = ([], Ok a) /\
  toRefOff asserts (S fuel) e qlen row =
    ([], if asserts && (a =? UNSET) then AssertFail
         else Ok (text_position e qlen a)).
Proof.
  intros Hr Hq Ha Hoff.
  assert (Hflat : toFlatRefOff asserts (S fuel) e qlen row = ([], Ok a)).
  { unfold toFlatRefOff.
    destruct (setRow_anchor asserts (RowChaser_new e) row qlen a)
      as (rc' & Hs & Hd & Ho); trivial.
    rewrite (bind_ok _ _ _ _ _ _ Hs).
    rewrite (bind_ok _ _ _ _ _ _ (drive_done asserts fuel _ Hd)).
    unfold flatOff, gets. cbn [fst snd app outcome]. rewrite Ho.
    reflexivity. }
  split; [exact Hflat |].
  unfold toRefOff.
  destruct (setRow_anchor asserts (RowChaser_new e) row qlen a)
    as (rc' & Hs & Hd & Ho); trivial.
  destruct (setRow_effect _ _ _ _ _ _ Hs) as (He & Hql & _).
  cbn [ebwt_ RowChaser_new] in He.
  rewrite (bind_ok _ _ _ _ _ _ Hs).
  rewrite (bind_ok _ _ _ _ _ _ (drive_done asserts fuel _ Hd)).
  destruct (asserts && (a =? UNSET)) eqn:Hc.
  - apply andb_prop in Hc. destruct Hc as [-> Hu]. apply Z.eqb_eq in Hu.
    rewrite off_unset_fails by congruence. reflexivity.
  - rewrite off_run.
    + cbn [fst snd app outcome]. rewrite He, Hql, Ho. reflexivity.
    + intros ->. cbn [andb] in Hc. apply Z.eqb_neq. congruence.
Qed.

Lemma anchor_row_resolves_without_access_witness :
  toFlatRefOff true 1 example_index 4 2 = ([], Ok 10) /\
  toRefOff true 1 example_index 4 2 = ([], Ok (0, 10)).
Proof.
  apply (anchor_row_resolves_without_access true 0 example_index 4 2 10).
  - discriminate.
  - lia.
  - reflexivity.
  - reflexivity.
Defined.
